(** * AI image organizer: a shallow embedding of [app.py]

    The development follows the pipeline of [ImageOrganizerWeb]:
    - [PyStr]: the Python string operations the pipeline relies on;
    - [Sanitizer]: [_describe_image] (cleaning of the model response) and
      [_generate_filename];
    - [Grouper]: [_group_similar_images];
    - [Organizer]: [_organize_files];
    - [Job]: [_process_job], as the history of job snapshots it writes;
    - [Web]: the table of jobs and the routes.

    Python strings are modelled by Rocq strings; a character stands for the
    code point of the same number (U+0000 .. U+00FF), so the character
    classes below are the Unicode ones restricted to that range.  Floating
    point numbers are kept abstract in [Grouper].  In [Job] the arithmetic
    of the progress is a parameter, with two instances: exact rationals,
    and the binary64 numbers of CPython. *)

From Stdlib Require Import Ascii String QArith DecimalString DecimalNat.
From Stdlib Require Import Floats Uint63.
Set Warnings "-inexact-float".
From stdpp Require Import gmap strings list sorting.

Close Scope Q_scope.
Open Scope string_scope.
Open Scope list_scope.

(** ** Python string operations *)
Module PyStr.

Definition chars (s : string) : list ascii := list_ascii_of_string s.
Definition str (l : list ascii) : string := string_of_list_ascii l.

Definition code (c : ascii) : N := N_of_ascii c.

Definition in_range (lo hi : N) (c : ascii) : bool :=
  ((lo <=? code c) && (code c <=? hi))%N.

(** [str.isspace] on one character; also the class [\s] of [re]. *)
Definition isspace (c : ascii) : bool :=
  in_range 9 13 c || in_range 28 32 c
  || (code c =? 133)%N || (code c =? 160)%N.

(** [str.isalnum] on one character. *)
Definition isalnum (c : ascii) : bool :=
  in_range 48 57 c || in_range 65 90 c || in_range 97 122 c
  || (code c =? 170)%N || in_range 178 179 c || (code c =? 181)%N
  || in_range 185 186 c || in_range 188 190 c
  || in_range 192 214 c || in_range 216 246 c || in_range 248 255 c.

(** The class [\w] of [re] on [str] patterns. *)
Definition re_word (c : ascii) : bool := isalnum c || Ascii.eqb c "_".

(** The characters of the range that [str.lower] changes. *)
Definition is_upper (c : ascii) : bool :=
  in_range 65 90 c || in_range 192 214 c || in_range 216 222 c.

Definition lower_char (c : ascii) : ascii :=
  if is_upper c then ascii_of_N (code c + 32) else c.

(** Only ever applied to the extension literals, which are ASCII. *)
Definition upper_char (c : ascii) : ascii :=
  if in_range 97 122 c then ascii_of_N (code c - 32) else c.

Definition lower (s : string) : string := str (map lower_char (chars s)).
Definition upper (s : string) : string := str (map upper_char (chars s)).

Fixpoint drop_while (p : ascii → bool) (l : list ascii) : list ascii :=
  match l with
  | [] => []
  | c :: r => if p c then drop_while p r else l
  end.

Definition lstrip_by (p : ascii → bool) (l : list ascii) := drop_while p l.
Definition rstrip_by (p : ascii → bool) (l : list ascii) :=
  rev (drop_while p (rev l)).

(** [s.strip()] *)
Definition strip (s : string) : string :=
  str (rstrip_by isspace (lstrip_by isspace (chars s))).

(** [s.rstrip(c)] for a one-character argument. *)
Definition rstrip_char (c : ascii) (s : string) : string :=
  str (rstrip_by (Ascii.eqb c) (chars s)).

(** [s.replace(c, '')] for a one-character [c]. *)
Definition remove_char (c : ascii) (s : string) : string :=
  str (List.filter (λ x, negb (Ascii.eqb x c)) (chars s)).

(** [s.replace(a, b)] for one-character [a] and [b]. *)
Definition replace_char (a b : ascii) (s : string) : string :=
  str (map (λ x, if Ascii.eqb x a then b else x) (chars s)).

(** [re.sub('[^...]', '', s)]: keep the characters of the class. *)
Definition re_keep (cls : ascii → bool) (s : string) : string :=
  str (List.filter cls (chars s)).

(** [re.sub('<p>+', rep, s)]: every maximal run of [p]-characters is
    replaced by the single character [rep]. *)
Fixpoint collapse_runs (p : ascii → bool) (rep : ascii) (in_run : bool)
    (l : list ascii) : list ascii :=
  match l with
  | [] => []
  | c :: r =>
      if p c then
        if in_run then collapse_runs p rep true r
        else rep :: collapse_runs p rep true r
      else c :: collapse_runs p rep false r
  end.

Definition re_sub_runs (p : ascii → bool) (rep : ascii) (s : string) : string :=
  str (collapse_runs p rep false (chars s)).

(** [s[:n]] *)
Definition truncate (n : nat) (s : string) : string := str (take n (chars s)).

(** [s.split()]: the maximal runs of non-whitespace characters. *)
Fixpoint split_aux (cur : list ascii) (l : list ascii) : list string :=
  match l with
  | [] => match cur with [] => [] | _ => [str (rev cur)] end
  | c :: r =>
      if isspace c then
        match cur with
        | [] => split_aux [] r
        | _ => str (rev cur) :: split_aux [] r
        end
      else split_aux (c :: cur) r
  end.

Definition split (s : string) : list string := split_aux [] (chars s).

(** ['_'.join(ws)] *)
Definition join_us (ws : list string) : string := String.concat "_" ws.

(** [s.endswith(t)] *)
Definition endswith (s t : string) : bool :=
  String.prefix (str (rev (chars t))) (str (rev (chars s))).

(** [str(n)] and the format [{n:02d}]. *)
Definition of_nat (n : nat) : string := NilZero.string_of_uint (Nat.to_uint n).

Definition pad2 (n : nat) : string :=
  let d := of_nat n in
  if Nat.ltb (String.length d) 2 then "0" +:+ d else d.

(** [Path(p).name]: the last component of a normalised POSIX path. *)
Fixpoint last_component (cur : list ascii) (l : list ascii) : list ascii :=
  match l with
  | [] => rev cur
  | c :: r => if Ascii.eqb c "/" then last_component [] r
              else last_component (c :: cur) r
  end.

Definition path_name (p : string) : string := str (last_component [] (chars p)).

(** [name.rfind('.')], as the number of characters after the last dot. *)
Fixpoint after_last_dot (cur : option (list ascii)) (l : list ascii)
    : option (list ascii) :=
  match l with
  | [] => cur
  | c :: r => if Ascii.eqb c "."
              then after_last_dot (Some r) r
              else after_last_dot cur r
  end.

(** [Path(p).suffix]: with [i = name.rfind('.')], the slice [name[i:]] when
    [0 < i < len(name) - 1], and the empty string otherwise. *)
Definition path_suffix (p : string) : string :=
  let name := chars (path_name p) in
  match after_last_dot None name with
  | None => ""
  | Some tail =>
      let i := (length name - length tail - 1)%nat in
      if Nat.ltb 0 i && Nat.ltb i (length name - 1) then str ("."%char :: tail)
      else ""
  end.

End PyStr.

Import PyStr.

(** ** [_describe_image] and [_generate_filename] *)
Module Sanitizer.

Definition dquote : ascii := "034"%char.
Definition squote : ascii := "039"%char.

(** The post-processing of the model response in [_describe_image]:
    [strip], [lower], the two [replace] calls, the two [re.sub] calls and
    the final [strip]. *)
Definition clean_response (response : string) : string :=
  let description := strip response in
  let description := remove_char squote (remove_char dquote (lower description)) in
  let description :=
    re_keep (λ c, re_word c || isspace c || Ascii.eqb c "-") description in
  let description := re_sub_runs isspace " " description in
  strip description.

(** [_describe_image]: the argument is the text returned by
    [ollama.generate], or [None] when the call (or reading its result)
    raises; the [except] branch returns the literal. *)
Definition _describe_image (response : option string) : string :=
  match response with
  | Some r => clean_response r
  | None => "unknown_image"
  end.

(** The value of the local [filename] of [_generate_filename] just before
    the extension is appended. *)
Definition filename_base (description : string) : string :=
  let filename := replace_char " " "_" description in
  let filename :=
    re_keep (λ c, re_word c || Ascii.eqb c "-" || Ascii.eqb c "_") filename in
  let filename := re_sub_runs (Ascii.eqb "_") "_" filename in
  let filename :=
    if Nat.ltb 100 (String.length filename) then truncate 100 filename
    else filename in
  rstrip_char "_" filename.

Definition _generate_filename (description original_path : string) : string :=
  let ext := lower (path_suffix original_path) in
  filename_base description +:+ ext.

(** The candidate filename of an image, from the raw model response. *)
Definition candidate_filename (response original_path : string) : string :=
  _generate_filename (_describe_image (Some response)) original_path.

(** The rule of the specification, read literally: the character class is
    [[A-Za-z0-9_\- ]], the extension keeps its case, and an empty base
    gives the literal. *)
Definition spec_class (c : ascii) : bool :=
  in_range 65 90 c || in_range 97 122 c || in_range 48 57 c
  || Ascii.eqb c "_" || Ascii.eqb c "-" || Ascii.eqb c " ".

Definition spec_base (description : string) : string :=
  let s := lower description in
  let s := remove_char squote (remove_char dquote s) in
  let s := re_keep spec_class s in
  let s := re_sub_runs isspace " " s in
  let s := replace_char " " "_" s in
  let s := re_sub_runs (Ascii.eqb "_") "_" s in
  let s := truncate 100 s in
  rstrip_char "_" s.

Definition spec_sanitize (description original_path : string) : string :=
  let base := spec_base description in
  if String.eqb base "" then "unknown_image"
  else base +:+ path_suffix original_path.

(** The rule as the code has it, told by words: the words of the response
    (its maximal runs of non-whitespace characters) are lower-cased and
    lose every character that is neither matched by [\w] nor a hyphen; the
    words that are left non-empty are joined by underscores; runs of
    underscores are collapsed, the result is cut to 100 characters and
    stripped of trailing underscores; the suffix of the original path, in
    lower case, follows.  There is no fallback. *)
Definition word_class (c : ascii) : bool := re_word c || Ascii.eqb c "-".

Definition clean_word (w : string) : string := re_keep word_class (lower w).

Definition cleaned_words (response : string) : list string :=
  List.filter (λ w, negb (String.eqb w "")) (map clean_word (split response)).

Definition amended_base (response : string) : string :=
  rstrip_char "_"
    (truncate 100 (re_sub_runs (Ascii.eqb "_") "_" (join_us (cleaned_words response)))).

Definition amended_sanitize (response original_path : string) : string :=
  amended_base response +:+ lower (path_suffix original_path).

Definition is_ascii (c : ascii) : bool := (code c <? 128)%N.

(** [[a-z0-9_-]] *)
Definition plain_class (c : ascii) : bool :=
  in_range 97 122 c || in_range 48 57 c || Ascii.eqb c "_" || Ascii.eqb c "-".

(** The four code points of "caf" followed by U+00E9 (e with acute). *)
Definition cafe : string := "caf" +:+ String "233"%char "".

End Sanitizer.

(** ** [_group_similar_images] *)
Module Grouper.

(** The [image_info] dictionary built by [_process_job]. *)
Record image_info := ImageInfo {
  original_path : string;
  original_name : string;
  description : string;
  new_filename : string;
  dimensions : nat * nat;
  size_bytes : nat
}.

#[export] Instance image_info_inhabited : Inhabited image_info :=
  populate (ImageInfo "" "" "" "" (0, 0)%nat 0%nat).

(** The floating point operations of the similarity test: [np.dot],
    [np.linalg.norm], [*], [/] and [>=]. *)
Class Numeric (F : Type) := {
  np_dot : list F → list F → F;
  np_norm : list F → F;
  fmul : F → F → F;
  fdiv : F → F → F;
  fge : F → F → bool
}.

(** Python's [enumerate(l, start)]. *)
Definition enumerate_from {A} (start : nat) (l : list A) : list (nat * A) :=
  zip (seq start (length l)) l.

Definition enumerate {A} (l : list A) : list (nat * A) := enumerate_from 0 l.

(** An insertion-ordered Python [dict] with string keys: assigning to a key
    that is present replaces its value in place, assigning to a new key
    appends the entry. *)
Definition dict (V : Type) : Type := list (string * V).

Definition keys {V} (d : dict V) : list string := d.*1.
Definition values {V} (d : dict V) : list V := d.*2.

Fixpoint dict_set {V} (k : string) (v : V) (d : dict V) : dict V :=
  match d with
  | [] => [(k, v)]
  | (k', v') :: r =>
      if String.eqb k' k then (k', v) :: r else (k', v') :: dict_set k v r
  end.

(** [d.get(k)] *)
Fixpoint dict_get {V} (k : string) (d : dict V) : option V :=
  match d with
  | [] => None
  | (k', v) :: r => if String.eqb k' k then Some v else dict_get k r
  end.

(** [k in d] *)
Definition dict_mem {V} (k : string) (d : dict V) : bool :=
  existsb (String.eqb k) (keys d).

(** [collections.Counter(ws)]: the counts, in order of first occurrence. *)
Fixpoint counter_add (w : string) (c : list (string * nat)) : list (string * nat) :=
  match c with
  | [] => [(w, 1%nat)]
  | (k, n) :: r =>
      if String.eqb k w then (k, S n) :: r else (k, n) :: counter_add w r
  end.

Definition Counter (ws : list string) : list (string * nat) :=
  foldl (λ c w, counter_add w c) [] ws.

(** [sorted(items, key=itemgetter(1), reverse=True)]: a stable sort by
    decreasing count. *)
Fixpoint insert_desc (x : string * nat) (l : list (string * nat))
    : list (string * nat) :=
  match l with
  | [] => [x]
  | y :: r => if Nat.leb y.2 x.2 then x :: l else y :: insert_desc x r
  end.

Definition sort_desc (l : list (string * nat)) : list (string * nat) :=
  foldr insert_desc [] l.

(** The number of occurrences of [w] in [ws]. *)
Definition occurrences (w : string) (ws : list string) : nat :=
  length (List.filter (String.eqb w) ws).

(** The order of the result of [sort_desc]: a larger count comes first. *)
Definition by_count (a b : string * nat) : Prop := (b.2 ≤ a.2)%nat.

(** [c.most_common(n)] *)
Definition most_common (n : nat) (c : list (string * nat)) : list (string * nat) :=
  take n (sort_desc c).

(** The candidate names of the [while] loop: [original_name], then
    [original_name_1], [original_name_2], ... *)
Definition suffixed (original_name : string) (counter : nat) : string :=
  original_name +:+ "_" +:+ of_nat counter.

(** The loop [while group_name in organized_groups: ...]; [fuel] bounds the
    number of iterations. *)
Fixpoint unique_loop {V} (fuel : nat) (organized_groups : dict V)
    (original_name group_name : string) (counter : nat) : string :=
  match fuel with
  | O => group_name
  | S fuel' =>
      if dict_mem group_name organized_groups then
        unique_loop fuel' organized_groups original_name
          (suffixed original_name counter) (S counter)
      else group_name
  end.

Definition unique_name {V} (organized_groups : dict V) (group_name : string)
    : string :=
  unique_loop (S (length organized_groups)) organized_groups group_name
    group_name 1.

(** The words of all member descriptions, in order. *)
Definition all_words (group : list image_info) : list string :=
  flat_map (λ img, split (description img)) group.

Definition common_words (group : list image_info) : list string :=
  (most_common 3 (Counter (all_words group))).*1.

Definition base_group_name (group : list image_info) : string :=
  join_us (common_words group).

(** The second loop of the function: the state is the pair
    [(organized_groups, catch_all)]. *)
Fixpoint name_groups (min_group_size : Z) (groups : list (list image_info))
    (organized_groups : dict (list image_info)) (catch_all : list image_info)
    : dict (list image_info) * list image_info :=
  match groups with
  | [] => (organized_groups, catch_all)
  | group :: rest =>
      if (min_group_size <=? Z.of_nat (length group))%Z then
        let group_name := unique_name organized_groups (base_group_name group) in
        name_groups min_group_size rest
          (dict_set group_name group organized_groups) catch_all
      else
        name_groups min_group_size rest organized_groups (catch_all ++ group)
  end.

Definition add_catch_all (organized_groups : dict (list image_info))
    (catch_all : list image_info) : dict (list image_info) :=
  match catch_all with
  | [] => organized_groups
  | _ => dict_set "misc_singles" catch_all organized_groups
  end.

Section Clustering.
Context {F : Type} `{Numeric F}.

(** [embedder.encode] returns one row per description, in order; [embed]
    is the row of one description. *)
Variable embed : string → list F.

Definition encode (descriptions : list string) : list (list F) :=
  map embed descriptions.

Definition similarity (a b : list F) : F :=
  fdiv (np_dot a b) (fmul (np_norm a) (np_norm b)).

Section Loops.
Variable embeddings : list (list F).
Variable threshold : F.

Definition similar (i j : nat) : bool :=
  fge (similarity (embeddings !!! i) (embeddings !!! j)) threshold.

(** The inner [for j, other_img in enumerate(images)] loop, for the
    seed [i]; the state is [(current_group, used)]. *)
Fixpoint scan (i : nat) (js : list (nat * image_info))
    (current_group : list image_info) (used : gset nat)
    : list image_info * gset nat :=
  match js with
  | [] => (current_group, used)
  | (j, other_img) :: rest =>
      if bool_decide (j ∈ used) then scan i rest current_group used
      else if similar i j then
        scan i rest (current_group ++ [other_img]) ({[j]} ∪ used)
      else scan i rest current_group used
  end.

(** The outer [for i, img in enumerate(images)] loop; the state is
    [(groups, used)]. *)
Fixpoint find_groups (images : list image_info) (todo : list (nat * image_info))
    (groups : list (list image_info)) (used : gset nat)
    : list (list image_info) * gset nat :=
  match todo with
  | [] => (groups, used)
  | (i, img) :: rest =>
      if bool_decide (i ∈ used) then find_groups images rest groups used
      else
        let '(current_group, used') :=
          scan i (enumerate images) [img] ({[i]} ∪ used) in
        find_groups images rest (groups ++ [current_group]) used'
  end.
End Loops.

Definition clusters (images : list image_info) (threshold : F)
    : list (list image_info) :=
  let descriptions := map description images in
  let embeddings := encode descriptions in
  (find_groups embeddings threshold images (enumerate images) [] ∅).1.

Definition _group_similar_images (images : list image_info) (threshold : F)
    (min_group_size : Z) : dict (list image_info) :=
  let groups := clusters images threshold in
  let '(organized_groups, catch_all) :=
    name_groups min_group_size groups [] [] in
  add_catch_all organized_groups catch_all.

End Clustering.

(** The entries of [enumerate(images)] at the indices [ixs]. *)
Definition pairs (images : list image_info) (ixs : list nat)
    : list (nat * image_info) :=
  map (λ i, (i, images !!! i)) ixs.

(** Star clustering as the specification words it, on the indices of the
    records: the first unclaimed index seeds a cluster, which takes every
    later unclaimed index that is similar to the seed; the indices it leaves
    stay unclaimed for the next seed. *)
Fixpoint star_clusters (sim : nat → nat → bool) (fuel : nat)
    (unclaimed : list nat) : list (list nat) :=
  match fuel, unclaimed with
  | S fuel', i :: rest =>
      (i :: List.filter (sim i) rest)
      :: star_clusters sim fuel' (List.filter (λ j, negb (sim i j)) rest)
  | _, _ => []
  end.

(** An instance for running the function on examples: exact rational
    arithmetic, with the norm of a vector whose squared length is the square
    of a rational. *)
Definition q_dot (a b : list Q) : Q :=
  foldr Qplus 0%Q (zip_with Qmult a b).

Definition q_sqrt (x : Q) : Q :=
  let y := Qred x in
  (Z.sqrt (Qnum y) # Pos.sqrt (Qden y))%Q.

#[export] Instance q_numeric : Numeric Q := {
  np_dot := q_dot;
  np_norm := λ a, q_sqrt (q_dot a a);
  fmul := Qmult;
  fdiv := Qdiv;
  fge := λ a b, Qle_bool b a
}.

(** A three-dimensional embedder for the examples: descriptions that
    mention the sky go on one axis, those that mention a car on a second
    one, all others on the third. *)
Definition axis_embed (d : string) : list Q :=
  if existsb (String.eqb "sky") (split d) then [0%Q; 1%Q; 0%Q]
  else if existsb (String.eqb "car") (split d) then [0%Q; 0%Q; 1%Q]
  else [1%Q; 0%Q; 0%Q].

Definition record (name desc : string) : image_info :=
  ImageInfo ("/in/" +:+ name) name desc
    (Sanitizer._generate_filename desc ("/in/" +:+ name)) (1, 1)%nat 1%nat.

(** Three records described as [misc_singles] and one described otherwise:
    the input on which the named group and the catch-all meet. *)
Definition overwrite_input : list image_info :=
  [record "a.jpg" "misc_singles"; record "b.jpg" "blue sky";
   record "c.jpg" "misc_singles"; record "d.jpg" "misc_singles"].

(** Two clusters that qualify for [min_group_size = 2], the first of them
    described as [misc_singles], and one record left for the pool. *)
Definition order_input : list image_info :=
  [record "a.jpg" "misc_singles"; record "b.jpg" "misc_singles";
   record "c.jpg" "red car"; record "d.jpg" "red car";
   record "e.jpg" "blue sky"].

Definition qualifies (min_group_size : Z) (group : list image_info) : bool :=
  (min_group_size <=? Z.of_nat (length group))%Z.

(** The two variables of [_group_similar_images] when its second loop ends:
    [organized_groups] and [catch_all]. *)
Definition named_groups {F : Type} `{Numeric F} (embed : string → list F)
    (images : list image_info) (threshold : F) (min_group_size : Z)
    : dict (list image_info) :=
  (name_groups min_group_size (clusters embed images threshold) [] []).1.

Definition pooled_records {F : Type} `{Numeric F} (embed : string → list F)
    (images : list image_info) (threshold : F) (min_group_size : Z)
    : list image_info :=
  (name_groups min_group_size (clusters embed images threshold) [] []).2.

End Grouper.

(** ** [_organize_files] *)
Module Organizer.
Import Grouper.

(** The file system calls of [_organize_files], in the order they are
    issued.  A destination is [output_folder / group_name / filename]. *)
Inductive fs_op :=
| MkdirOutput (output_folder : string)
| MkdirGroup (group_name : string)
| Copy2 (source group_name filename : string)
| Move (source group_name filename : string).

(** [images.sort(key=lambda x: x['original_name'])]: a stable sort, strings
    compared character by character. *)
Fixpoint insert_by_name (x : image_info) (l : list image_info) : list image_info :=
  match l with
  | [] => [x]
  | y :: r =>
      if String.leb (original_name x) (original_name y) then x :: l
      else y :: insert_by_name x r
  end.

Definition sort_by_name (images : list image_info) : list image_info :=
  foldr insert_by_name [] images.

Definition place (copy_files : bool) (img : image_info)
    (group_name filename : string) : fs_op :=
  let source := original_path img in
  if copy_files then Copy2 source group_name filename
  else Move source group_name filename.

(** [base_name], from [images[0]] of the sorted list. *)
Definition shared_base_name (images : list image_info) : string :=
  let base_desc := description (images !!! 0%nat) in
  let base_words := take 4 (split base_desc) in
  join_us base_words.

(** [f"{base_name}_{i:02d}{ext}"] *)
Definition sequential_name (base_name : string) (i : nat) (img : image_info)
    : string :=
  let ext := path_suffix (original_path img) in
  base_name +:+ "_" +:+ pad2 i +:+ ext.

(** The body of the loop over [groups.items()]: the calls issued for one
    group, and [false] when [images[0]] raises [IndexError]. *)
Definition organize_group (copy_files : bool) (group_name : string)
    (images : list image_info) : list fs_op * bool :=
  if Nat.ltb 1 (length images) then
    let images := sort_by_name images in
    let base_name := shared_base_name images in
    (MkdirGroup group_name ::
       map (λ p, place copy_files p.2 group_name (sequential_name base_name p.1 p.2))
           (enumerate_from 1 images),
     true)
  else
    match images with
    | [] => ([MkdirGroup group_name], false)
    | img :: _ =>
        ([MkdirGroup group_name; place copy_files img group_name (new_filename img)],
         true)
    end.

Fixpoint organize_groups (copy_files : bool) (groups : dict (list image_info))
    : list fs_op * bool :=
  match groups with
  | [] => ([], true)
  | (group_name, images) :: rest =>
      let '(ops, ok) := organize_group copy_files group_name images in
      if ok then
        let '(ops', ok') := organize_groups copy_files rest in
        (ops ++ ops', ok')
      else (ops, false)
  end.

Definition _organize_files (groups : dict (list image_info))
    (output_folder : string) (copy_files : bool) : list fs_op * bool :=
  let '(ops, ok) := organize_groups copy_files groups in
  (MkdirOutput output_folder :: ops, ok).

(** The name given to the file of [img] by the calls [ops], if any. *)
Definition op_target (op : fs_op) : option (string * string * string) :=
  match op with
  | Copy2 s g f | Move s g f => Some (s, g, f)
  | _ => None
  end.

(** The order of [images.sort]: by [original_name], as strings. *)
Definition by_name (a b : image_info) : Prop :=
  String.le (original_name a) (original_name b).

End Organizer.

(** ** [_process_job] *)
Module Job.
Import Grouper Organizer.

Inductive status := st_pending | st_running | st_completed | st_error.

Record results := Results {
  r_total_images : nat;
  r_groups_created : nat;
  r_groups : dict nat
}.

(** The mutable fields of a job dictionary. *)
Record job := MkJob {
  job_status : status;
  progress : Q;
  total_images : nat;
  processed_images : nat;
  current_file : string;
  job_results : option results;
  job_error : option string
}.

(** The job as [create_job] registers it. *)
Definition new_job : job := MkJob st_pending 0%Q 0 0 "" None None.

Definition with_status (s : status) (j : job) : job :=
  MkJob s (progress j) (total_images j) (processed_images j) (current_file j)
    (job_results j) (job_error j).

Definition with_total (n : nat) (j : job) : job :=
  MkJob (job_status j) (progress j) n (processed_images j) (current_file j)
    (job_results j) (job_error j).

Definition with_phase (label : string) (p : Q) (j : job) : job :=
  MkJob (job_status j) p (total_images j) (processed_images j) label
    (job_results j) (job_error j).

Definition with_file (name : string) (i : nat) (p : Q) (j : job) : job :=
  MkJob (job_status j) p (total_images j) i name (job_results j) (job_error j).

Definition failed (msg : string) (j : job) : job :=
  MkJob st_error (progress j) (total_images j) (processed_images j)
    (current_file j) (job_results j) (Some msg).

Definition finished (r : results) (j : job) : job :=
  MkJob st_completed 100%Q (total_images j) (processed_images j) "Complete!"
    (Some r) (job_error j).

Record settings (F : Type) := Settings {
  model : string;
  similarity_threshold : F;
  min_group_size : Z;
  copy_files : bool
}.
Arguments model {F}. Arguments similarity_threshold {F}.
Arguments min_group_size {F}. Arguments copy_files {F}.

(** What the job reads from outside: the entries below the input folder,
    the outcome of the calls on each image ([None] when the call raises),
    the embedder, and the message of the exception a call raises, if it
    does. *)
Record world (F : Type) := World {
  listing : list string;
  image_size : string → option (nat * nat);
  generate : string → option string;
  stat_size : string → option nat;
  embed : string → list F;
  encode_error : list string → option string;
  fs_error : fs_op → option string
}.
Arguments listing {F}. Arguments image_size {F}. Arguments generate {F}.
Arguments stat_size {F}. Arguments embed {F}. Arguments encode_error {F}.
Arguments fs_error {F}.

Definition image_extensions : list string :=
  [".jpg"; ".jpeg"; ".png"; ".bmp"; ".tiff"; ".webp"].

(** [input_path.glob(f"**/*{ext}")] on a case-sensitive file system: the
    entries whose last component ends with [ext]. *)
Definition glob_rec (entries : list string) (ext : string) : list string :=
  List.filter (λ p, endswith (path_name p) ext) entries.

(** The loop over [image_extensions]; [order] is the order in which the set
    is iterated. *)
Definition find_images (order : list string) (entries : list string)
    : list string :=
  flat_map (λ ext, glob_rec entries ext ++ glob_rec entries (upper ext)) order.

(** What an observer can see of a run, in order: the job after each
    [with job_lock] block, the end of the [try] body of one image ([ok] is
    [false] when it left through [except]), the mapping returned by the
    grouping, and each file system call that returned. *)
Inductive event :=
| Update (j : job)
| Processed (i : nat) (image_path : string) (ok : bool)
| Grouped (groups : dict (list image_info))
| FsCall (op : fs_op).

(** The [try] body of the per-image loop, after the locked update. *)
Definition process_image {F} (w : world F) (image_path : string)
    : option image_info :=
  match image_size w image_path with
  | None => None
  | Some dims =>
      let description := Sanitizer._describe_image (generate w image_path) in
      let new_filename := Sanitizer._generate_filename description image_path in
      match stat_size w image_path with
      | None => None
      | Some size =>
          Some (ImageInfo image_path (path_name image_path) description
                  new_filename dims size)
      end
  end.

(** The arithmetic of [(i / len(image_files)) * 50]: the true division of
    two integers gives a float, which is then multiplied by the integer 50.
    The job records a progress value as the rational number it denotes. *)
Class ProgressArith := {
  float_t : Type;
  true_div : nat → nat → float_t;
  mul_int : float_t → Z → float_t;
  denote : float_t → Q
}.

(** Exact arithmetic: a float is a rational, and no operation rounds. *)
#[export] Instance exact_arith : ProgressArith := {|
  float_t := Q;
  true_div i n := (inject_Z (Z.of_nat i) / inject_Z (Z.of_nat n))%Q;
  mul_int x k := (x * inject_Z k)%Q;
  denote x := x
|}.

(** The arithmetic of CPython: a float is a binary64 number.  The
    conversion of an integer is exact below 2^53, as are the counts of files
    and the factor 50; the division and the product are rounded to nearest. *)
Definition float_of_Z (k : Z) : float := PrimFloat.of_uint63 (Uint63.of_Z k).

Definition float_value (x : float) : Q :=
  match Prim2SF x with
  | S754_finite sign m e =>
      let magnitude :=
        if (0 <=? e)%Z then inject_Z (Z.pos m * 2 ^ e)
        else Qmake (Z.pos m) (2 ^ Z.to_pos (- e))%positive in
      if sign then Qopp magnitude else magnitude
  | _ => 0%Q
  end.

Definition binary64_arith : ProgressArith := {|
  float_t := float;
  true_div i n := PrimFloat.div (float_of_Z (Z.of_nat i)) (float_of_Z (Z.of_nat n));
  mul_int x k := PrimFloat.mul x (float_of_Z k);
  denote := float_value
|}.

(** [(i / len(image_files)) * 50] *)
Definition file_progress `{ProgressArith} (i n : nat) : Q :=
  denote (mul_int (true_div i n) 50).
Arguments file_progress : simpl never.

(** The formula of the specification, [50 * i / n], in the same
    arithmetic: the product of the two integers is exact, the division
    gives the float. *)
Definition spec_progress `{ProgressArith} (i n : nat) : Q :=
  denote (true_div (50 * i) n).

Fixpoint describe_loop `{ProgressArith} {F} (w : world F) (n : nat)
    (files : list (nat * string))
    (j : job) (processed : list image_info)
    : job * list image_info * list event :=
  match files with
  | [] => (j, processed, [])
  | (i, image_path) :: rest =>
      let j1 := with_file (path_name image_path) i (file_progress i n) j in
      let r := process_image w image_path in
      let processed' :=
        match r with Some info => processed ++ [info] | None => processed end in
      let '(j', all, evs) := describe_loop w n rest j1 processed' in
      (j', all, Update j1 :: Processed i image_path (bool_decide (is_Some r)) :: evs)
  end.

(** The calls are issued in order until one raises. *)
Fixpoint run_ops {F} (w : world F) (ops : list fs_op)
    : list event * option string :=
  match ops with
  | [] => ([], None)
  | op :: rest =>
      match fs_error w op with
      | Some msg => ([], Some msg)
      | None => let '(evs, e) := run_ops w rest in (FsCall op :: evs, e)
      end
  end.

Definition summary (processed : list image_info)
    (groups : dict (list image_info)) : results :=
  Results (length processed) (length groups)
    (map (λ e, (e.1, length e.2)) groups).

Definition _process_job `{ProgressArith} {F} `{Numeric F} (w : world F)
    (s : settings F)
    (output_folder : string) (order : list string) (job0 : job) : list event :=
  let j1 := with_status st_running job0 in
  let image_files := find_images order (listing w) in
  let j2 := with_total (length image_files) j1 in
  match image_files with
  | [] =>
      [Update j1; Update j2;
       Update (failed "No images found in the specified folder" j2)]
  | _ =>
      let '(j3, processed, evs) :=
        describe_loop w (length image_files) (enumerate image_files) j2 [] in
      let j4 := with_phase "Grouping similar images..." 50%Q j3 in
      let pre := [Update j1; Update j2] ++ evs ++ [Update j4] in
      match encode_error w (map description processed) with
      | Some msg => pre ++ [Update (failed msg j4)]
      | None =>
          let groups :=
            _group_similar_images (embed w) processed
              (similarity_threshold s) (min_group_size s) in
          let j5 := with_phase "Organizing files..." 75%Q j4 in
          let '(ops, ok) := _organize_files groups output_folder (copy_files s) in
          let '(calls, err) := run_ops w ops in
          let pre := pre ++ [Grouped groups; Update j5] ++ calls in
          match err with
          | Some msg => pre ++ [Update (failed msg j5)]
          | None =>
              if ok then pre ++ [Update (finished (summary processed groups) j5)]
              else pre ++ [Update (failed "list index out of range" j5)]
          end
      end
  end.

(** The successive states of the job: what a status read can return. *)
Definition updates (evs : list event) : list job :=
  omap (λ e, match e with Update j => Some j | _ => None end) evs.

Definition history (job0 : job) (evs : list event) : list job :=
  job0 :: updates evs.

(** For every image whose processing is directly followed by a job update,
    the index of the image and the progress that update writes. *)
Fixpoint progress_after (evs : list event) : list (nat * Q) :=
  match evs with
  | [] => []
  | e :: rest =>
      match e, rest with
      | Processed i _ _, Update j :: _ => (i, progress j) :: progress_after rest
      | _, _ => progress_after rest
      end
  end.

(** The two events of one iteration of the per-image loop. *)
Definition file_events `{ProgressArith} {F} (w : world F) (n : nat) (j : job)
    (e : nat * string) : list event :=
  [Update (with_file (path_name e.2) e.1 (file_progress e.1 n) j);
   Processed e.1 e.2 (bool_decide (is_Some (process_image w e.2)))].

Definition is_update (e : event) : bool :=
  match e with Update _ => true | _ => false end.

(** The events of an image that is skipped. *)
Definition skipped_events `{ProgressArith} (n : nat) (j : job) (e : nat * string)
    : list event :=
  [Update (with_file (path_name e.2) e.1 (file_progress e.1 n) j);
   Processed e.1 e.2 false].

(** The progress written right after an image.  After the image of index
    [k], that is after [k + 1] images of [n], the next update is that of the
    image of index [k + 1], which writes [((k + 1) / n) * 50], or, after the
    last image, the update that precedes the grouping, which writes 50. *)
Definition after_file `{ProgressArith} (n : nat) (x : nat * Q) (k : nat) : Prop :=
  x.1 = k
  ∧ x.2 = if decide (S k = n) then 50%Q else file_progress (S k) n.

(** What a status read shows of the job, as far as progress goes. *)
Definition view (j : job) : status * Q := (job_status j, progress j).

Definition progress_le (a b : status * Q) : Prop := (a.2 <= b.2)%Q.

(** The ways a run can end once images were found: the failure of the
    grouping, the failure of the organizing, or the completion. *)
Definition endings : list (list (status * Q)) :=
  [[(st_error, 50%Q)];
   [(st_running, 75%Q); (st_error, 75%Q)];
   [(st_running, 75%Q); (st_completed, 100%Q)]].

Definition is_fs_call (e : event) : bool :=
  match e with FsCall _ => true | _ => false end.

Definition is_terminal (s : status) : bool :=
  match s with st_completed | st_error => true | _ => false end.

(** A list of views is well ordered when progress never decreases, 100 is
    shown only with [completed], and the last view, and only the last, is
    terminal. *)
Definition well_ordered (vs : list (status * Q)) : Prop :=
  StronglySorted progress_le vs
  ∧ Forall (λ v, (v.2 == 100)%Q → v.1 = st_completed) vs
  ∧ ∃ init final, vs = init ++ [final]
      ∧ Forall (λ v, is_terminal v.1 = false) init
      ∧ is_terminal final.1 = true.

(** A world for the examples: every image opens, and no call fails. *)
Definition calm_world (entries : list string) (answer : string → string)
    : world Q :=
  World Q entries (λ _, Some (640, 480)%nat) (λ p, Some (answer p))
    (λ _, Some 1000%nat) axis_embed (λ _, None) (λ _, None).

Definition default_settings : settings Q :=
  Settings Q "qwen2.5vl" (85 # 100)%Q 3 true.

End Job.

(** ** The registry of jobs and the routes *)
Module Web.
Import Grouper Job.

(** A JSON value of the settings object. *)
Inductive value :=
| VStr (s : string)
| VNum (q : Q)
| VBool (b : bool)
| VNull.

(** [d.update(other)]: the entries of [other] are assigned in order. *)
Definition dict_update {V} (d other : dict V) : dict V :=
  foldl (λ acc kv, dict_set kv.1 kv.2 acc) d other.

(** The local [default_settings] of [start_job]. *)
Definition default_settings : dict value :=
  [("model", VStr "qwen2.5vl");
   ("similarity_threshold", VNum (85 # 100)%Q);
   ("min_group_size", VNum 3%Q);
   ("copy_files", VBool true)].

(** The dictionary [job_data] of [create_job]: the fields written once,
    and the fields the worker updates. *)
Record job_data := JobData {
  jd_id : string;
  jd_input_folder : string;
  jd_output_folder : string;
  jd_settings : dict value;
  jd_start_time : Q;
  jd_state : job
}.

(** [create_job]: [job_id] is the identifier drawn by [uuid.uuid4()], [now]
    the value of [time.time()]; the result is the identifier and the table
    [jobs] after the assignment.  The worker thread it starts runs
    [_process_job]. *)
Definition create_job (jobs : dict job_data) (job_id : string) (now : Q)
    (input_folder output_folder : string) (settings : dict value)
    : string * dict job_data :=
  let job_data :=
    JobData job_id input_folder output_folder settings now new_job in
  (job_id, dict_set job_id job_data jobs).

(** A response of a route: the JSON body with status 200, an error object
    with its status code, or, when an exception leaves the view function,
    the answer 500 of Flask, which holds no JSON; [exception] is the class
    of the exception. *)
Inductive response (A : Type) :=
| Json (body : A)
| Failure (code : nat) (error : string)
| Unhandled (exception : string).
Arguments Json {A}. Arguments Failure {A}. Arguments Unhandled {A}.

(** What the body of the request holds under the key [settings]: nothing,
    a JSON object, [null], a boolean, a number or a string.  A JSON array
    is not in this type. *)
Inductive settings_field :=
| SettingsAbsent
| SettingsObject (settings : dict value)
| SettingsNull
| SettingsBool (b : bool)
| SettingsNum (q : Q)
| SettingsStr (s : string).

(** The body of the request of [start_job], a JSON object: a folder that
    is absent or [null] reads as [None], and is a string otherwise. *)
Record start_request := StartRequest {
  req_input_folder : option string;
  req_output_folder : option string;
  req_settings : settings_field
}.

(** [default_settings.update(settings)] with
    [settings = data.get('settings', {})]: the dictionary after the call, or
    the class of the exception the call raises.  [None], a boolean and a
    number are not iterable; a string is iterated character by character,
    and a character is not a pair; the empty string yields nothing. *)
Definition update_settings (d : dict value) (settings : settings_field)
    : string + dict value :=
  match settings with
  | SettingsAbsent => inr (dict_update d [])
  | SettingsObject other => inr (dict_update d other)
  | SettingsNull | SettingsBool _ | SettingsNum _ => inl "TypeError"
  | SettingsStr s => if String.eqb s "" then inr d else inl "ValueError"
  end.

(** [not s] for a string or [None]. *)
Definition falsy (s : option string) : bool :=
  match s with
  | None => true
  | Some s => String.eqb s ""
  end.

(** [start_job]; [path_exists] is [os.path.exists]. *)
Definition start_job (path_exists : string → bool) (job_id : string) (now : Q)
    (jobs : dict job_data) (data : start_request)
    : response string * dict job_data :=
  let input_folder := req_input_folder data in
  let output_folder := req_output_folder data in
  let settings := req_settings data in
  if falsy input_folder || falsy output_folder then
    (Failure 400 "Input and output folders are required", jobs)
  else if negb (path_exists (default "" input_folder)) then
    (Failure 400 "Input folder does not exist", jobs)
  else
    match update_settings default_settings settings with
    | inl exception => (Unhandled exception, jobs)
    | inr default_settings =>
        let '(job_id, jobs) :=
          create_job jobs job_id now (default "" input_folder)
            (default "" output_folder) default_settings in
        (Json job_id, jobs)
    end.

(** [job_status] *)
Definition job_status (jobs : dict job_data) (job_id : string)
    : response job_data :=
  match dict_get job_id jobs with
  | None => Failure 404 "Job not found"
  | Some job => Json job
  end.

(** [list_jobs] *)
Definition list_jobs (jobs : dict job_data) : list job_data := values jobs.

(** A locked update of the worker of [job_id]: the mutable fields of the
    entry [jobs[job_id]] become [j]. *)
Definition with_state (j : job) (d : job_data) : job_data :=
  JobData (jd_id d) (jd_input_folder d) (jd_output_folder d) (jd_settings d)
    (jd_start_time d) j.

Fixpoint write_state (job_id : string) (j : job) (jobs : dict job_data)
    : dict job_data :=
  match jobs with
  | [] => []
  | (k, d) :: r =>
      if String.eqb k job_id then (k, with_state j d) :: r
      else (k, d) :: write_state job_id j r
  end.

(** The table after the worker of [job_id] has written the updates of
    [evs]. *)
Definition run_worker (job_id : string) (evs : list event)
    (jobs : dict job_data) : dict job_data :=
  foldl (λ acc j, write_state job_id j acc) jobs (updates evs).

(** [os.path.join(a, b)] *)
Definition path_join (a b : string) : string :=
  if String.prefix "/" b then b
  else if String.eqb a "" || endswith a "/" then a +:+ b
  else a +:+ "/" +:+ b.

(** [os.path.dirname(p)] *)
Definition dirname (p : string) : string :=
  let head := str (rev (drop_while (λ c, negb (Ascii.eqb c "/")) (rev (chars p)))) in
  if negb (String.eqb head "") && negb (forallb (Ascii.eqb "/") (chars head))
  then rstrip_char "/" head
  else head.

Record folder_item := FolderItem {
  item_name : string;
  item_path : string;
  item_type : string
}.

Record folder_listing := FolderListing {
  current_path : string;
  parent_path : option string;
  items : list folder_item
}.

(** [items.sort(key=lambda x: x['name'].lower())] *)
Fixpoint insert_item (x : folder_item) (l : list folder_item) : list folder_item :=
  match l with
  | [] => [x]
  | y :: r =>
      if String.leb (lower (item_name x)) (lower (item_name y)) then x :: l
      else y :: insert_item x r
  end.

Definition sort_items (l : list folder_item) : list folder_item :=
  foldr insert_item [] l.

Inductive os_error :=
| PermissionError (message : string)
| OtherError (message : string).

(** [browse_folder]; [listdir] is [os.listdir], which returns the names of
    the entries or raises, [isdir] is [os.path.isdir]. *)
Definition browse_folder (listdir : string → os_error + list string)
    (isdir : string → bool) (path : string) : response folder_listing :=
  match listdir path with
  | inl (PermissionError _) => Failure 403 "Permission denied"
  | inl (OtherError message) => Failure 500 message
  | inr names =>
      let items :=
        omap (λ item,
                let item_path := path_join path item in
                if isdir item_path
                then Some (FolderItem item item_path "folder")
                else None)
             names in
      let items := sort_items items in
      Json (FolderListing path
              (if negb (String.eqb path (dirname path))
               then Some (dirname path) else None)
              items)
  end.

(** The order of [sort_items]. *)
Definition by_lower_name (a b : folder_item) : Prop :=
  String.le (lower (item_name a)) (lower (item_name b)).

(** The entry appended for the directory [item] of [path]. *)
Definition folder_entry (path item : string) : folder_item :=
  FolderItem item (path_join path item) "folder".

(** A path as [browse_folder] returns them for a normalised start: the root,
    or a non-empty path that does not end with a slash. *)
Definition normal_path (p : string) : bool :=
  String.eqb p "/" || (negb (String.eqb p "") && negb (endswith p "/")).

(** A name as [os.listdir] returns them: not empty and without a slash. *)
Definition entry_name (item : string) : bool :=
  negb (String.eqb item "") && forallb (λ c, negb (Ascii.eqb c "/")) (chars item).

End Web.

(** ** Readings of the file system calls, and inputs for the examples *)
Module Calls.
Import Grouper Organizer.

(** The file a call copies or moves. *)
Definition source_of (op : fs_op) : option string :=
  match op with
  | Copy2 source _ _ | Move source _ _ => Some source
  | _ => None
  end.

(** The name a call gives to the file it places. *)
Definition filename_of (op : fs_op) : option string :=
  match op with
  | Copy2 _ _ filename | Move _ _ filename => Some filename
  | _ => None
  end.

(** The group folder a call creates. *)
Definition folder_of (op : fs_op) : option string :=
  match op with
  | MkdirGroup group_name => Some group_name
  | _ => None
  end.

Definition is_move (op : fs_op) : bool :=
  match op with Move _ _ _ => true | _ => false end.

Definition is_copy (op : fs_op) : bool :=
  match op with Copy2 _ _ _ => true | _ => false end.

(** A trace whose last event is the write of a terminal state. *)
Definition ends_terminal (evs : list Job.event) : Prop :=
  ∃ pre j, evs = pre ++ [Job.Update j]
    ∧ Job.is_terminal (Job.job_status j) = true.

(** The images of a run, in the order in which their processing ended:
    the index, the path, and whether a record was appended. *)
Definition processed_events (evs : list Job.event) : list (nat * string * bool) :=
  omap (λ e, match e with
             | Job.Processed i image_path ok => Some (i, image_path, ok)
             | _ => None
             end) evs.

(** The file system calls of a run, in order. *)
Definition fs_calls (evs : list Job.event) : list fs_op :=
  omap (λ e, match e with Job.FsCall op => Some op | _ => None end) evs.

(** The records of a run: the images whose processing is not skipped, in
    the order of discovery. *)
Definition records_of {F : Type} (w : Job.world F) (files : list string)
    : list image_info :=
  omap (Job.process_image w) files.

(** Whether the [try] body of the per-image loop reaches [append]: both
    [Image.open] and [stat] return. *)
Definition opens {F : Type} (w : Job.world F) (image_path : string) : bool :=
  match Job.image_size w image_path, Job.stat_size w image_path with
  | Some _, Some _ => true
  | _, _ => false
  end.

(** The glob suffixes in the order in which the loop of the discovery uses
    them. *)
Definition patterns (order : list string) : list string :=
  flat_map (λ ext, [ext; upper ext]) order.

(** No suffix of the list ends with another one. *)
Definition suffix_free (ps : list string) : bool :=
  forallb (λ a, forallb (λ b, implb (endswith b a) (String.eqb a b)) ps) ps.

(** A world in which the embedder raises. *)
Definition deaf_world (entries : list string) : Job.world Q :=
  Job.World Q entries (λ _, Some (640, 480)%nat) (λ _, Some "red car")
    (λ _, Some 1000%nat) axis_embed (λ _, Some "embedder down") (λ _, None).

(** A world in which no group folder can be created. *)
Definition readonly_world (entries : list string) : Job.world Q :=
  Job.World Q entries (λ _, Some (640, 480)%nat) (λ _, Some "red car")
    (λ _, Some 1000%nat) axis_embed (λ _, None)
    (λ op, match op with
           | MkdirGroup _ => Some "Permission denied"
           | _ => None
           end).

(** Three records about a car and two about the sky. *)
Definition five_records : list image_info :=
  [record "1.jpg" "red car"; record "2.jpg" "blue sky";
   record "3.jpg" "red car"; record "4.jpg" "blue sky";
   record "5.jpg" "red car"].

End Calls.

(** ** Shapes of strings *)
Module Shape.

(** No two neighbouring characters are both in the class [p]. *)
Fixpoint no_adjacent (p : ascii → bool) (l : list ascii) : bool :=
  match l with
  | [] => true
  | c :: r =>
      match r with
      | [] => true
      | d :: _ => negb (p c && p d) && no_adjacent p r
      end
  end.

(** The first character, if any, is not in the class [p]. *)
Definition head_free (p : ascii → bool) (l : list ascii) : bool :=
  match l with
  | [] => true
  | c :: _ => negb (p c)
  end.

(** The last character, if any, is not in the class [p]. *)
Definition last_free (p : ascii → bool) (l : list ascii) : bool :=
  head_free p (rev l).

Definition is_digit (c : ascii) : bool := in_range 48 57 c.

End Shape.

(** * Properties *)

(** ** Strings *)
Module PyStrFacts.

Lemma chars_str l : chars (str l) = l.
Proof. apply list_ascii_of_string_of_list_ascii. Qed.

Lemma str_chars s : str (chars s) = s.
Proof. apply string_of_list_ascii_of_string. Qed.

Lemma length_chars s : length (chars s) = String.length s.
Proof. induction s as [|c s IH]; simpl; [done | by rewrite IH]. Qed.

Lemma chars_app s t : chars (s +:+ t) = chars s ++ chars t.
Proof. induction s as [|c s IH]; simpl; [done | by rewrite IH]. Qed.

(** Decides a statement about one character by running through all of
    them. *)
Ltac by_char c :=
  destruct c as [[] [] [] [] [] [] [] []]; vm_compute;
  try (intuition congruence).

Section Preservation.
Variable P : ascii → Prop.

Lemma Forall_lfilter f l : Forall P l → Forall P (List.filter f l).
Proof.
  induction 1 as [|c l Hc Hl IH]; simpl; [constructor|].
  destruct (f c); [by constructor | done].
Qed.

Lemma Forall_drop_while f l : Forall P l → Forall P (drop_while f l).
Proof.
  induction 1 as [|c l Hc Hl IH]; simpl; [constructor|].
  destruct (f c); [done | by constructor].
Qed.

Lemma Forall_rstrip_by f l : Forall P l → Forall P (rstrip_by f l).
Proof.
  intros Hl. unfold rstrip_by.
  apply List.Forall_rev, Forall_drop_while, List.Forall_rev, Hl.
Qed.

Lemma Forall_collapse_runs f rep b l :
  P rep → Forall P l → Forall P (collapse_runs f rep b l).
Proof.
  intros Hrep Hl. revert b.
  induction Hl as [|c l Hc Hl IH]; intros b; simpl; [constructor|].
  destruct (f c); [destruct b|]; auto.
Qed.

Lemma Forall_strip s : Forall P (chars s) → Forall P (chars (strip s)).
Proof.
  intros Hs. unfold strip. rewrite chars_str.
  by apply Forall_rstrip_by, Forall_drop_while.
Qed.
End Preservation.

Lemma Forall_lfilter' {A} (P : A → Prop) f l :
  Forall P l → Forall P (List.filter f l).
Proof.
  induction 1 as [|c l Hc Hl IH]; simpl; [constructor|].
  destruct (f c); [by constructor | done].
Qed.

Lemma Forall_lfilter_true (f : ascii → bool) l :
  Forall (λ c, f c = true) (List.filter f l).
Proof.
  induction l as [|c l IH]; simpl; [constructor|].
  destruct (f c) eqn:E; [by constructor | done].
Qed.

Lemma Forall_collapse_runs_class (P Q : ascii → Prop) f rep b l :
  Q rep → (∀ c, P c → f c = false → Q c) →
  Forall P l → Forall Q (collapse_runs f rep b l).
Proof.
  intros Hrep HPQ Hl. revert b.
  induction Hl as [|c l Hc Hl IH]; intros b; simpl; [constructor|].
  destruct (f c) eqn:E; [destruct b|]; auto.
Qed.

Lemma lfilter_id (f : ascii → bool) l :
  Forall (λ c, f c = true) l → List.filter f l = l.
Proof.
  induction 1 as [|c l Hc Hl IH]; simpl; [done|]. by rewrite Hc, IH.
Qed.

Lemma lfilter_id_gen {A} (f : A → bool) l :
  Forall (λ c, f c = true) l → List.filter f l = l.
Proof.
  induction 1 as [|c l Hc Hl IH]; simpl; [done|]. by rewrite Hc, IH.
Qed.

Lemma length_lfilter {A} (f : A → bool) l : (length (List.filter f l) ≤ length l)%nat.
Proof. induction l as [|c l IH]; simpl; [lia|]. destruct (f c); simpl; lia. Qed.

Lemma length_drop_while f l : (length (drop_while f l) ≤ length l)%nat.
Proof. induction l as [|c l IH]; simpl; [lia|]. destruct (f c); simpl; lia. Qed.

Lemma length_rstrip_by f l : (length (rstrip_by f l) ≤ length l)%nat.
Proof.
  unfold rstrip_by. rewrite length_rev.
  etrans; [apply length_drop_while|]. by rewrite length_rev.
Qed.

End PyStrFacts.

(** ** The sanitizer *)
Module SanitizerFacts.
Import PyStrFacts Sanitizer.

Section Preservation.
Variable P : ascii → Prop.
Hypothesis P_space : P " "%char.
Hypothesis P_underscore : P "_"%char.

(** The steps of [clean_response] after [lower] add no character but the
    space. *)
Lemma clean_response_Forall response :
  Forall P (map lower_char (chars (strip response))) →
  Forall P (chars (clean_response response)).
Proof.
  intros Hl. unfold clean_response.
  apply Forall_strip. unfold re_sub_runs, re_keep, remove_char, lower.
  rewrite !chars_str.
  apply Forall_collapse_runs; [done|].
  by do 3 apply Forall_lfilter.
Qed.

(** [filename_base] adds no character but the underscore. *)
Lemma filename_base_Forall description :
  Forall P (chars description) → Forall P (chars (filename_base description)).
Proof.
  intros Hd. unfold filename_base, rstrip_char. rewrite chars_str.
  apply Forall_rstrip_by.
  assert (Forall P (chars (re_sub_runs (Ascii.eqb "_") "_"
            (re_keep (λ c, re_word c || Ascii.eqb c "-" || Ascii.eqb c "_")
               (replace_char " " "_" description))))) as Hrun.
  { unfold re_sub_runs, re_keep, replace_char. rewrite !chars_str.
    apply Forall_collapse_runs; [done|]. apply Forall_lfilter.
    apply Forall_fmap. eapply Forall_impl; [exact Hd|].
    intros c Hc. simpl. by destruct (Ascii.eqb c " "). }
  destruct (Nat.ltb 100 _); [|done].
  unfold truncate. rewrite chars_str. by apply Forall_take.
Qed.
End Preservation.

Lemma filename_base_class description :
  Forall (λ c, re_word c || Ascii.eqb c "-" = true)
    (chars (filename_base description)).
Proof.
  unfold filename_base, rstrip_char. rewrite chars_str.
  apply Forall_rstrip_by.
  set (cls := λ c, re_word c || Ascii.eqb c "-" || Ascii.eqb c "_").
  assert (Forall (λ c, re_word c || Ascii.eqb c "-" = true)
            (chars (re_sub_runs (Ascii.eqb "_") "_"
               (re_keep cls (replace_char " " "_" description))))) as Hrun.
  { unfold re_sub_runs, re_keep. rewrite !chars_str.
    apply Forall_collapse_runs; [done|].
    eapply Forall_impl; [apply Forall_lfilter_true|].
    intros c. unfold cls. by_char c. }
  destruct (Nat.ltb 100 _); [|done].
  unfold truncate. rewrite chars_str. by apply Forall_take.
Qed.

Lemma filename_base_length description :
  (String.length (filename_base description) ≤ 100)%nat.
Proof.
  unfold filename_base, rstrip_char.
  rewrite <- length_chars, chars_str.
  etrans; [apply length_rstrip_by|].
  destruct (Nat.ltb 100 _) eqn:E.
  - unfold truncate. rewrite chars_str, length_take. lia.
  - apply Nat.ltb_ge in E. by rewrite length_chars.
Qed.

(** The second [re.sub] of [_generate_filename] removes nothing from a
    description produced by [_describe_image]. *)
Lemma second_filter_noop response :
  let d := replace_char " " "_" (clean_response response) in
  re_keep (λ c, re_word c || Ascii.eqb c "-" || Ascii.eqb c "_") d = d.
Proof.
  simpl. unfold re_keep.
  rewrite lfilter_id; [apply str_chars|].
  unfold replace_char. rewrite chars_str. apply Forall_fmap.
  unfold clean_response.
  set (s := re_sub_runs _ _ _).
  eapply Forall_impl;
    [apply (Forall_strip (λ c, re_word c || Ascii.eqb c "-" || Ascii.eqb c " " = true))|].
  - unfold s, re_sub_runs, re_keep. rewrite !chars_str.
    eapply Forall_collapse_runs_class; [done | | apply Forall_lfilter_true].
    intros c. simpl. by_char c.
  - intros c. simpl. by_char c.
Qed.

Lemma truncate_if (s : string) :
  (if Nat.ltb 100 (String.length s) then truncate 100 s else s) = truncate 100 s.
Proof.
  destruct (Nat.ltb 100 _) eqn:E; [done|]. apply Nat.ltb_ge in E.
  unfold truncate. rewrite take_ge; [by rewrite str_chars|].
  by rewrite length_chars.
Qed.

(** C4 as written fails on the code: the extension is lower-cased, an
    empty base gives no fallback literal, and a non-ASCII letter of the
    response stays in the name. *)
Lemma spec_sanitize_differs :
  candidate_filename "Red Car" "/in/IMG_1.JPG" = "red_car.jpg"
  ∧ spec_sanitize "Red Car" "/in/IMG_1.JPG" = "red_car.JPG"
  ∧ candidate_filename "!!!" "/in/x.png" = ".png"
  ∧ spec_sanitize "!!!" "/in/x.png" = "unknown_image"
  ∧ candidate_filename cafe "/in/x.png" = cafe +:+ ".png"
  ∧ candidate_filename "Red Car" "/in/IMG_1.JPG"
    ≠ spec_sanitize "Red Car" "/in/IMG_1.JPG"
  ∧ candidate_filename "!!!" "/in/x.png" ≠ spec_sanitize "!!!" "/in/x.png"
  ∧ ¬ Forall (λ c, spec_class c = true) (chars (filename_base (clean_response cafe))).
Proof.
  repeat split; try reflexivity; try (by vm_compute).
  intros Hall. vm_compute in Hall.
  repeat match goal with H : Forall _ (_ :: _) |- _ => inversion_clear H end.
  discriminate.
Qed.

End SanitizerFacts.

(** ** Clustering *)
Module ClusterFacts.
Import Grouper.

Lemma enumerate_from_pairs (pre l : list image_info) :
  enumerate_from (length pre) l = pairs (pre ++ l) (seq (length pre) (length l)).
Proof.
  revert pre. induction l as [|x l IH]; intros pre; [done|].
  unfold enumerate_from, pairs in *. simpl. f_equal.
  - f_equal. by rewrite list_lookup_total_middle.
  - specialize (IH (pre ++ [x])).
    rewrite length_app, Nat.add_1_r, <- app_assoc in IH. exact IH.
Qed.

Lemma enumerate_pairs (images : list image_info) :
  enumerate images = pairs images (seq 0 (length images)).
Proof. apply (enumerate_from_pairs [] images). Qed.

Lemma lfilter_lfilter {A} (f g : A → bool) l :
  List.filter f (List.filter g l) = List.filter (λ x, g x && f x) l.
Proof.
  induction l as [|x l IH]; simpl; [done|].
  destruct (g x); simpl; [destruct (f x)|]; by rewrite ?IH.
Qed.

Lemma lfilter_none {A} (f : A → bool) l :
  (∀ x, In x l → f x = false) → List.filter f l = [].
Proof.
  induction l as [|x l IH]; intros Hf; simpl; [done|].
  rewrite Hf by (by left). apply IH. intros y Hy. apply Hf. by right.
Qed.

Lemma map_lookup_seq (images : list image_info) :
  map (λ i, images !!! i) (seq 0 (length images)) = images.
Proof.
  pose proof (enumerate_pairs images) as He.
  apply (f_equal (map snd)) in He. unfold pairs in He.
  rewrite map_map in He. simpl in He. rewrite <- He.
  unfold enumerate, enumerate_from. apply snd_zip. by rewrite length_seq.
Qed.

Section Star.
Context {F : Type} {num : Numeric F}.
Variable embeddings : list (list F).
Variable threshold : F.
Variable images : list image_info.

Abbreviation sim := (similar embeddings threshold).
Abbreviation free used := (λ j, negb (bool_decide (j ∈ used))).

(** The inner loop adds exactly the unclaimed indices similar to the
    seed, in order. *)
Lemma scan_spec i ixs current_group (used : gset nat) :
  NoDup ixs →
  let added := List.filter (λ j, free used j && sim i j) ixs in
  scan embeddings threshold i (pairs images ixs) current_group used
  = (current_group ++ map (λ j, images !!! j) added,
     used ∪ list_to_set added).
Proof.
  intros Hnd. revert current_group used.
  induction Hnd as [|j ixs Hj Hnd IH]; intros current_group used; simpl.
  { f_equal; [by rewrite app_nil_r | set_solver]. }
  destruct (bool_decide (j ∈ used)) eqn:Eu; simpl; [apply IH|].
  destruct (sim i j) eqn:Es; simpl; [|apply IH].
  rewrite IH. apply bool_decide_eq_false in Eu.
  assert (List.filter (λ x, free ({[j]} ∪ used) x && sim i x) ixs
          = List.filter (λ x, free used x && sim i x) ixs) as ->.
  { apply List.filter_ext_in. intros x Hx. f_equal. f_equal.
    apply bool_decide_ext. apply list_elem_of_In in Hx. set_solver. }
  f_equal; [by rewrite <- app_assoc | set_solver].
Qed.

(** The outer loop, from index [k] on, with every index below [k]
    claimed: it appends the star clusters of the unclaimed indices. *)
Lemma find_groups_spec m : ∀ k fuel groups (used : gset nat),
  (k + m = length images)%nat → (m ≤ fuel)%nat →
  (∀ x, (x < k)%nat → x ∈ used) →
  (find_groups embeddings threshold images (pairs images (seq k m))
     groups used).1
  = groups ++ map (map (λ j, images !!! j))
      (star_clusters sim fuel (List.filter (free used) (seq k m))).
Proof.
  induction m as [|m IH]; intros k fuel groups used Hlen Hfuel Hlow; simpl.
  { destruct fuel; simpl; by rewrite app_nil_r. }
  destruct (bool_decide (k ∈ used)) eqn:Eu; simpl.
  { apply IH; [lia | lia |]. intros x Hx.
    destruct (decide (x = k)) as [->|]; [by apply bool_decide_eq_true in Eu|].
    apply Hlow. lia. }
  apply bool_decide_eq_false in Eu.
  destruct fuel as [|fuel]; [lia|].
  rewrite enumerate_pairs, scan_spec by apply NoDup_seq.
  cbv zeta.
  set (unclaimed := List.filter (free used) (seq (S k) m)).
  assert (List.filter (λ j, free ({[k]} ∪ used) j && sim k j)
            (seq 0 (length images))
          = List.filter (sim k) unclaimed) as Hadd.
  { replace (length images) with (k + S m)%nat by lia.
    rewrite seq_app, List.filter_app.
    rewrite lfilter_none, app_nil_l.
    2:{ intros x Hx. apply in_seq in Hx.
        rewrite bool_decide_eq_true_2; [done|].
        apply elem_of_union_r, Hlow. lia. }
    cbn [seq List.filter Nat.add].
    rewrite (bool_decide_eq_true_2 (k ∈ {[k]} ∪ used)) by set_solver.
    cbn [negb andb].
    unfold unclaimed. rewrite lfilter_lfilter.
    apply List.filter_ext_in. intros x Hx. apply in_seq in Hx.
    f_equal. f_equal. apply bool_decide_ext.
    rewrite elem_of_union, elem_of_singleton. split; [|tauto].
    intros [->|]; [lia | done]. }
  rewrite Hadd. simpl star_clusters.
  etrans; [apply (IH (S k) fuel); [lia | lia |]|].
  { intros x Hx. destruct (decide (x = k)) as [->|]; [set_solver|].
    apply elem_of_union_l, elem_of_union_r, Hlow. lia. }
  rewrite <- app_assoc. f_equal. simpl. f_equal. f_equal. f_equal.
  trans (List.filter (λ x, free used x && negb (sim k x)) (seq (S k) m));
    [|symmetry; apply lfilter_lfilter].
  apply List.filter_ext_in. intros x Hx. apply in_seq in Hx.
  destruct (bool_decide (x ∈ used)) eqn:Ex; simpl.
  - apply bool_decide_eq_true in Ex.
    rewrite bool_decide_eq_true_2; [done | set_solver].
  - apply bool_decide_eq_false in Ex.
    destruct (sim k x) eqn:Es; simpl.
    + rewrite bool_decide_eq_true_2; [done|].
      apply elem_of_union_r, elem_of_list_to_set, list_elem_of_In.
      apply List.filter_In. split; [|done].
      apply List.filter_In. split; [apply in_seq; lia|].
      by rewrite bool_decide_eq_false_2.
    + rewrite bool_decide_eq_false_2; [done|].
      rewrite !elem_of_union, elem_of_singleton, elem_of_list_to_set.
      intros [[->|]|Hin]; [lia | done |].
      apply list_elem_of_In, List.filter_In in Hin. destruct Hin as [_ Hc].
      congruence.
Qed.
End Star.

Lemma star_clusters_partition sim fuel l :
  (length l ≤ fuel)%nat → concat (star_clusters sim fuel l) ≡ₚ l.
Proof.
  revert l. induction fuel as [|fuel IH]; intros l Hl.
  { destruct l; [done | simpl in Hl; lia]. }
  destruct l as [|i rest]; [done|]. simpl.
  constructor. rewrite IH.
  - clear. induction rest as [|x rest IHr]; [done|]. simpl.
    destruct (sim i x); simpl; [by constructor|].
    by rewrite <- Permutation_middle, IHr.
  - simpl in Hl. pose proof (PyStrFacts.length_lfilter (λ j, negb (sim i j)) rest).
    lia.
Qed.

Lemma star_clusters_nonempty sim fuel l :
  Forall (λ c, c ≠ []) (star_clusters sim fuel l).
Proof.
  revert l. induction fuel as [|fuel IH]; intros l; [constructor|].
  destruct l as [|i rest]; [constructor|]. simpl. by constructor.
Qed.

End ClusterFacts.

(** ** The clusters of [_group_similar_images] *)
Module GrouperFacts.
Import Grouper ClusterFacts.

Section Refinement.
Context {F : Type} {num : Numeric F}.
Variable embed : string → list F.

Lemma encode_lookup (images : list image_info) i :
  (i < length images)%nat →
  encode embed (map description images) !!! i
  = embed (description (images !!! i)).
Proof.
  intros Hi. unfold encode. rewrite map_map.
  apply list_lookup_total_correct.
  rewrite list_lookup_fmap.
  destruct (lookup_lt_is_Some_2 images i Hi) as [x Hx].
  rewrite Hx. simpl. by rewrite (list_lookup_total_correct _ _ _ Hx).
Qed.

(** C2: the clusters are the star clusters of the indices [0 .. n-1]
    taken in input order: an index already claimed seeds nothing, an
    unclaimed index [i] seeds a cluster, and a later unclaimed index [j]
    joins it exactly when [dot(e_i, e_j) / (norm(e_i) * norm(e_j))] is at
    least the threshold, [e_i] and [e_j] being the embeddings of the two
    descriptions; no other pair is compared. *)
Theorem clusters_star (images : list image_info) (threshold : F) :
  let n := length images in
  let embeddings := encode embed (map description images) in
  clusters embed images threshold
  = map (map (λ i, images !!! i))
      (star_clusters (similar embeddings threshold) n (seq 0 n))
  ∧ ∀ i j, (i < n)%nat → (j < n)%nat →
      let e_i := embed (description (images !!! i)) in
      let e_j := embed (description (images !!! j)) in
      similar embeddings threshold i j
      = fge (fdiv (np_dot e_i e_j) (fmul (np_norm e_i) (np_norm e_j)))
          threshold.
Proof.
  intros n embeddings. split.
  - unfold clusters. fold embeddings. rewrite enumerate_pairs.
    rewrite (find_groups_spec embeddings threshold images n 0 n [] ∅);
      [| reflexivity | reflexivity | intros x Hx; lia].
    rewrite app_nil_l. do 2 f_equal.
    apply PyStrFacts.lfilter_id_gen. apply Forall_forall. intros x _.
    by rewrite bool_decide_eq_false_2.
  - intros i j Hi Hj. cbv zeta. unfold similar, similarity, embeddings.
    by rewrite !encode_lookup.
Qed.

(** Every record is in exactly one cluster. *)
Lemma clusters_partition (images : list image_info) (threshold : F) :
  concat (clusters embed images threshold) ≡ₚ images.
Proof.
  destruct (clusters_star images threshold) as [-> _].
  rewrite <- List.concat_map.
  etrans; [apply Permutation_map, star_clusters_partition;
           by rewrite length_seq|].
  by rewrite map_lookup_seq.
Qed.

Lemma clusters_nonempty (images : list image_info) (threshold : F) :
  Forall (λ c, c ≠ []) (clusters embed images threshold).
Proof.
  destruct (clusters_star images threshold) as [-> _].
  apply Forall_fmap.
  eapply Forall_impl; [apply star_clusters_nonempty|].
  intros c Hc. simpl. by destruct c.
Qed.
End Refinement.

End GrouperFacts.

(** ** Group names *)
Module NamingFacts.
Import Grouper.

Lemma of_nat_inj n m : of_nat n = of_nat m → n = m.
Proof.
  assert (∀ d, Nat.of_uint <$> NilZero.uint_of_string (NilZero.string_of_uint d)
               = Some (Nat.of_uint d)) as Hd.
  { intros d. destruct d; [done|..]; by rewrite NilZero.usu. }
  intros Heq. unfold of_nat in Heq.
  pose proof (Hd (Nat.to_uint n)) as Hn. rewrite Heq, Hd in Hn.
  rewrite !Unsigned.of_to in Hn. congruence.
Qed.

Lemma suffixed_inj original_name i j :
  suffixed original_name i = suffixed original_name j → i = j.
Proof.
  unfold suffixed. intros Heq.
  apply of_nat_inj. by do 2 apply String.app_inj in Heq.
Qed.

Section Dict.
Context {V : Type}.
Implicit Types (d : dict V) (k : string) (v : V).

Lemma dict_mem_spec k d : dict_mem k d = true ↔ k ∈ keys d.
Proof.
  unfold dict_mem. rewrite existsb_exists. split.
  - intros (x & Hx & Heq). apply String.eqb_eq in Heq as ->.
    by apply list_elem_of_In.
  - intros Hk. exists k. split; [by apply list_elem_of_In|].
    apply String.eqb_refl.
Qed.

Lemma dict_mem_false k d : dict_mem k d = false ↔ k ∉ keys d.
Proof.
  rewrite <- dict_mem_spec. destruct (dict_mem k d); split; congruence.
Qed.

(** Assigning to a new key appends the entry. *)
Lemma dict_set_fresh k v d : k ∉ keys d → dict_set k v d = d ++ [(k, v)].
Proof.
  induction d as [|[k' v'] d IH]; intros Hk; simpl; [done|].
  unfold keys in Hk. simpl in Hk. apply not_elem_of_cons in Hk as [Hne Hk].
  destruct (String.eqb_spec k' k) as [->|_]; [done|]. by rewrite IH.
Qed.

(** Assigning to a present key keeps the keys and their order. *)
Lemma dict_set_keys_present k v d : k ∈ keys d → keys (dict_set k v d) = keys d.
Proof.
  induction d as [|[k' v'] d IH]; intros Hk; simpl.
  { by apply elem_of_nil in Hk. }
  destruct (String.eqb_spec k' k) as [->|Hne]; [done|].
  unfold keys in *. simpl in *. f_equal. apply IH.
  apply elem_of_cons in Hk as [->|]; done.
Qed.

(** If the loop returns a name that is taken, every name it tried is. *)
Lemma unique_loop_taken fuel d original_name : ∀ group_name counter,
  unique_loop fuel d original_name group_name counter ∈ keys d →
  ∀ j, (counter ≤ j < counter + fuel)%nat → suffixed original_name j ∈ keys d.
Proof.
  induction fuel as [|fuel IH]; intros group_name counter Hr j Hj; [lia|].
  simpl in Hr. destruct (dict_mem group_name d) eqn:Em.
  - destruct (decide (j = counter)) as [->|Hne].
    + destruct fuel as [|fuel]; [exact Hr|].
      simpl in Hr. destruct (dict_mem (suffixed original_name counter) d) eqn:E2.
      * by apply dict_mem_spec.
      * exact Hr.
    + apply (IH _ _ Hr). lia.
  - apply dict_mem_false in Em. done.
Qed.

(** The loop stops within its fuel: the name it returns is free. *)
Lemma unique_name_fresh d original_name :
  unique_name d original_name ∉ keys d.
Proof.
  intros Hr. unfold unique_name in Hr.
  pose proof (unique_loop_taken _ _ _ _ _ Hr) as Hall.
  assert (map (suffixed original_name) (seq 1 (S (length d))) ⊆ keys d) as Hsub.
  { intros x Hx. apply list_elem_of_fmap in Hx as (j & -> & Hj).
    apply list_elem_of_In, in_seq in Hj. apply Hall. lia. }
  assert (NoDup (map (suffixed original_name) (seq 1 (S (length d))))) as Hnd.
  { apply NoDup_fmap_2; [|apply NoDup_seq].
    intros i j. apply suffixed_inj. }
  pose proof (submseteq_length _ _ (NoDup_submseteq _ _ Hnd Hsub)) as Hlen.
  unfold keys in Hlen. rewrite !length_map, length_seq in Hlen. lia.
Qed.

(** The name returned is the first free one among [original_name],
    [original_name_1], [original_name_2], ... *)
Lemma unique_loop_first fuel d original_name : ∀ group_name counter,
  let r := unique_loop fuel d original_name group_name counter in
  r ∉ keys d →
  ((group_name ∉ keys d) ∧ r = group_name)
  ∨ ((group_name ∈ keys d)
     ∧ ∃ j, (counter ≤ j)%nat ∧ r = suffixed original_name j
         ∧ ∀ j', (counter ≤ j' < j)%nat → suffixed original_name j' ∈ keys d).
Proof.
  induction fuel as [|fuel IH]; intros group_name counter r Hr.
  { left. done. }
  unfold r in *. clear r. simpl in *.
  destruct (dict_mem group_name d) eqn:Em.
  - right. apply dict_mem_spec in Em. split; [done|].
    destruct (IH _ _ Hr) as [[_ ->]|(Hk & j & Hj & -> & Hbefore)].
    + exists counter. split; [lia|]. split; [done|]. intros j' Hj'. lia.
    + exists j. split; [lia|]. split; [done|]. intros j' Hj'.
      destruct (decide (j' = counter)) as [->|]; [done|]. apply Hbefore. lia.
  - left. by apply dict_mem_false in Em.
Qed.

Lemma unique_name_first d original_name :
  let r := unique_name d original_name in
  ((original_name ∉ keys d) ∧ r = original_name)
  ∨ ((original_name ∈ keys d)
     ∧ ∃ j, (1 ≤ j)%nat ∧ r = suffixed original_name j
         ∧ ∀ j', (1 ≤ j' < j)%nat → suffixed original_name j' ∈ keys d).
Proof. apply unique_loop_first, unique_name_fresh. Qed.
End Dict.

(** *** The naming rule: [Counter] and [most_common] *)

Lemma Counter_snoc ws w : Counter (ws ++ [w]) = counter_add w (Counter ws).
Proof. unfold Counter. by rewrite foldl_app. Qed.

Lemma counter_add_get w c w' :
  dict_get w' (counter_add w c)
  = if String.eqb w w' then Some (S (default 0%nat (dict_get w c)))
    else dict_get w' c.
Proof.
  induction c as [|[k n] c IH]; simpl.
  { by destruct (String.eqb_spec w w'). }
  destruct (String.eqb_spec k w) as [->|Hkw]; simpl.
  - by destruct (String.eqb_spec w w').
  - destruct (String.eqb_spec k w') as [->|Hkw']; [|exact IH].
    by destruct (String.eqb_spec w w').
Qed.

Lemma counter_add_keys w c :
  keys (counter_add w c)
  = keys c ++ (if bool_decide (w ∈ keys c) then [] else [w]).
Proof.
  induction c as [|[k n] c IH]; [done|].
  cbn [counter_add]. destruct (String.eqb_spec k w) as [->|Hkw].
  - change (w :: keys c
            = (w :: keys c) ++ (if bool_decide (w ∈ w :: keys c) then [] else [w])).
    rewrite bool_decide_eq_true_2 by left. by rewrite app_nil_r.
  - change (k :: keys (counter_add w c)
            = (k :: keys c) ++ (if bool_decide (w ∈ k :: keys c) then [] else [w])).
    rewrite IH. simpl. f_equal. f_equal.
    rewrite (bool_decide_ext (w ∈ k :: keys c) (w ∈ keys c)); [done|].
    rewrite elem_of_cons. naive_solver.
Qed.

(** Each word is counted once per occurrence. *)
Lemma Counter_get ws w :
  dict_get w (Counter ws)
  = if bool_decide (w ∈ ws) then Some (occurrences w ws) else None.
Proof.
  induction ws as [|x ws IH] using rev_ind; [done|].
  rewrite Counter_snoc, counter_add_get. unfold occurrences in *.
  rewrite List.filter_app, length_app. simpl.
  destruct (String.eqb_spec x w) as [->|Hne].
  - rewrite String.eqb_refl, IH.
    rewrite (bool_decide_eq_true_2 (w ∈ ws ++ [w])) by set_solver.
    destruct (bool_decide (w ∈ ws)) eqn:Ew; simpl; [f_equal; lia|].
    apply bool_decide_eq_false in Ew. f_equal.
    rewrite ClusterFacts.lfilter_none; [done|].
    intros y Hy. apply String.eqb_neq. intros ->.
    by apply Ew, list_elem_of_In.
  - rewrite IH. destruct (String.eqb_spec w x) as [->|_]; [done|].
    simpl. rewrite Nat.add_0_r.
    by rewrite (bool_decide_ext (w ∈ ws ++ [x]) (w ∈ ws)) by set_solver.
Qed.

(** The words are kept in the order of their first occurrence. *)
Lemma Counter_keys_mem ws w : w ∈ keys (Counter ws) ↔ w ∈ ws.
Proof.
  revert w. induction ws as [|x ws IH] using rev_ind; intros w; [done|].
  rewrite Counter_snoc, counter_add_keys, !elem_of_app, IH.
  destruct (bool_decide (x ∈ keys (Counter ws))) eqn:E.
  - apply bool_decide_eq_true in E. apply IH in E. set_solver.
  - set_solver.
Qed.

Lemma Counter_keys_snoc ws w :
  keys (Counter (ws ++ [w]))
  = keys (Counter ws) ++ (if bool_decide (w ∈ ws) then [] else [w]).
Proof.
  rewrite Counter_snoc, counter_add_keys.
  by rewrite (bool_decide_ext _ _ (Counter_keys_mem ws w)).
Qed.

Lemma Counter_keys_NoDup ws : NoDup (keys (Counter ws)).
Proof.
  induction ws as [|x ws IH] using rev_ind; [constructor|].
  rewrite Counter_keys_snoc.
  destruct (bool_decide (x ∈ ws)) eqn:E; [by rewrite app_nil_r|].
  apply bool_decide_eq_false in E.
  apply NoDup_app. split; [done|]. split; [|apply NoDup_singleton].
  intros y Hy Hy'. apply list_elem_of_singleton in Hy' as ->.
  by apply E, Counter_keys_mem.
Qed.

#[local] Instance by_count_trans : Transitive by_count.
Proof. intros a b c. unfold by_count. lia. Qed.

Lemma insert_desc_perm x l : insert_desc x l ≡ₚ x :: l.
Proof.
  induction l as [|y l IH]; simpl; [done|].
  destruct (Nat.leb _ _); [done|]. by rewrite IH, Permutation_swap.
Qed.

Lemma sort_desc_perm l : sort_desc l ≡ₚ l.
Proof.
  induction l as [|x l IH]; simpl; [done|]. by rewrite insert_desc_perm, IH.
Qed.

Lemma insert_desc_sorted x l :
  Sorted by_count l → Sorted by_count (insert_desc x l).
Proof.
  induction 1 as [|y l Hl IH Hy]; simpl; [by repeat constructor|].
  destruct (Nat.leb_spec y.2 x.2) as [Hle|Hlt].
  - constructor; [by constructor|]. by constructor.
  - constructor; [done|].
    destruct l as [|z l]; simpl.
    + constructor. unfold by_count. lia.
    + destruct (Nat.leb z.2 x.2); constructor;
        [unfold by_count; lia | by inversion Hy].
Qed.

(** The counts decrease along the sorted list. *)
Lemma sort_desc_sorted l : StronglySorted by_count (sort_desc l).
Proof.
  apply Sorted_StronglySorted; [apply by_count_trans|].
  induction l as [|x l IH]; simpl; [constructor|].
  by apply insert_desc_sorted.
Qed.

Lemma insert_desc_stable k x l :
  List.filter (λ e, Nat.eqb e.2 k) (insert_desc x l)
  = List.filter (λ e, Nat.eqb e.2 k) (x :: l).
Proof.
  induction l as [|y l IH]; [done|]. simpl insert_desc.
  destruct (Nat.leb_spec y.2 x.2) as [Hle|Hlt]; [done|].
  simpl in *. rewrite IH.
  destruct (Nat.eqb_spec y.2 k) as [Hy|Hy], (Nat.eqb_spec x.2 k) as [Hx|Hx];
    try done. lia.
Qed.

(** The sort is stable: entries with the same count keep their order, that
    of first occurrence. *)
Lemma sort_desc_stable k l :
  List.filter (λ e, Nat.eqb e.2 k) (sort_desc l)
  = List.filter (λ e, Nat.eqb e.2 k) l.
Proof.
  induction l as [|x l IH]; [done|]. simpl sort_desc.
  rewrite insert_desc_stable. simpl. by rewrite IH.
Qed.

(** The base name of a cluster: the first three entries of the counts of
    its words, sorted as above, joined by underscores. *)
Lemma base_group_name_eq group :
  base_group_name group
  = join_us (take 3 (sort_desc (Counter (all_words group)))).*1.
Proof. done. Qed.

(** The second loop: the qualifying clusters are appended in order, each
    under the first free name for its base name; the others are pooled. *)
Lemma name_groups_step min_group_size group rest d c :
  name_groups min_group_size (group :: rest) d c
  = if qualifies min_group_size group
    then name_groups min_group_size rest
           (d ++ [(unique_name d (base_group_name group), group)]) c
    else name_groups min_group_size rest d (c ++ group).
Proof.
  simpl. unfold qualifies. destruct (_ <=? _)%Z; [|done].
  by rewrite dict_set_fresh by apply unique_name_fresh.
Qed.

Lemma name_groups_values min_group_size groups : ∀ d c,
  let r := name_groups min_group_size groups d c in
  values r.1 = values d ++ List.filter (qualifies min_group_size) groups
  ∧ r.2 = c ++ concat (List.filter (λ g, negb (qualifies min_group_size g)) groups).
Proof.
  induction groups as [|g groups IH]; intros d c.
  { simpl. by rewrite !app_nil_r. }
  cbv zeta. rewrite name_groups_step. simpl List.filter.
  destruct (qualifies min_group_size g); simpl negb; cbv iota.
  - destruct (IH (d ++ [(unique_name d (base_group_name g), g)]) c) as [-> ->].
    split; [|done]. unfold values. rewrite fmap_app. simpl.
    by rewrite <- app_assoc.
  - destruct (IH d (c ++ g)) as [-> ->]. split; [done|].
    simpl. by rewrite <- app_assoc.
Qed.

Lemma name_groups_keys_NoDup min_group_size groups : ∀ d c,
  NoDup (keys d) → NoDup (keys (name_groups min_group_size groups d c).1).
Proof.
  induction groups as [|g groups IH]; intros d c Hd; [done|].
  rewrite name_groups_step. destruct (qualifies min_group_size g); [|by apply IH].
  apply IH. unfold keys. rewrite fmap_app. simpl.
  apply NoDup_app. split; [done|]. split; [|apply NoDup_singleton].
  intros x Hx Hx'. apply list_elem_of_singleton in Hx' as ->.
  by apply (unique_name_fresh d (base_group_name g)).
Qed.

Lemma lfilter_split {A} (f : list A → bool) (l : list (list A)) :
  concat (List.filter f l) ++ concat (List.filter (λ x, negb (f x)) l)
  ≡ₚ concat l.
Proof.
  induction l as [|x l IH]; [done|]. simpl.
  destruct (f x); simpl.
  - by rewrite <- app_assoc, IH.
  - rewrite <- IH. rewrite !app_assoc. f_equiv. apply Permutation_app_comm.
Qed.

End NamingFacts.

(** ** The mapping returned by [_group_similar_images] *)
Module MappingFacts.
Import Grouper GrouperFacts NamingFacts.

Section Mapping.
Context {F : Type} {num : Numeric F}.
Variable embed : string → list F.
Variables (images : list image_info) (threshold : F) (min_group_size : Z).

Abbreviation named := (named_groups embed images threshold min_group_size).
Abbreviation pooled := (pooled_records embed images threshold min_group_size).

Lemma group_similar_images_eq :
  _group_similar_images embed images threshold min_group_size
  = add_catch_all named pooled.
Proof.
  unfold _group_similar_images, named_groups, pooled_records.
  by destruct (name_groups _ _ _ _).
Qed.

Lemma named_values :
  values named
  = List.filter (qualifies min_group_size) (clusters embed images threshold).
Proof. apply (name_groups_values min_group_size _ [] []). Qed.

Lemma pooled_eq :
  pooled = concat (List.filter (λ g, negb (qualifies min_group_size g))
                     (clusters embed images threshold)).
Proof. apply (name_groups_values min_group_size _ [] []). Qed.

Lemma named_pooled_partition : concat (values named) ++ pooled ≡ₚ images.
Proof.
  rewrite named_values, pooled_eq, lfilter_split. apply clusters_partition.
Qed.

(** As long as no named group is itself called [misc_singles] while the
    pool is non-empty, the mapping is a partition of the input: the
    clusters of size at least [min_group_size] in discovery order, then
    the pool under [misc_singles] unless it is empty. *)
Lemma partition_without_collision :
  "misc_singles" ∉ keys named ∨ pooled = [] →
  let result := _group_similar_images embed images threshold min_group_size in
  concat (values result) ≡ₚ images
  ∧ NoDup (keys result)
  ∧ result = named ++ match pooled with
                      | [] => []
                      | _ => [("misc_singles", pooled)]
                      end.
Proof.
  intros Hfree result. unfold result. rewrite group_similar_images_eq.
  pose proof named_pooled_partition as Hp.
  pose proof (name_groups_keys_NoDup min_group_size
                (clusters embed images threshold) [] [] (NoDup_nil_2)) as Hnd.
  fold named in Hnd. unfold add_catch_all.
  destruct pooled as [|x pool] eqn:Epool.
  { rewrite app_nil_r in *. done. }
  destruct Hfree as [Hfree|]; [|done].
  rewrite dict_set_fresh by done.
  split; [|split; [|done]].
  - unfold values in *. rewrite fmap_app, concat_app. simpl.
    by rewrite app_nil_r.
  - unfold keys in *. rewrite fmap_app. simpl.
    apply NoDup_app. split; [done|]. split; [|apply NoDup_singleton].
    intros k Hk Hk'. by apply list_elem_of_singleton in Hk' as ->.
Qed.

(** No group of the mapping is empty. *)
Lemma groups_nonempty :
  Forall (λ g, g ≠ [])
    (values (_group_similar_images embed images threshold min_group_size)).
Proof.
  rewrite group_similar_images_eq.
  assert (Forall (λ g : list image_info, g ≠ []) (values named)) as Hn.
  { rewrite named_values. apply PyStrFacts.Forall_lfilter'.
    apply clusters_nonempty. }
  unfold add_catch_all. destruct pooled as [|x pool]; [done|].
  generalize (x :: pool) (ltac:(done) : x :: pool ≠ []).
  intros v Hv. clear -Hn Hv.
  induction named as [|[k' v'] d IH]; simpl.
  { by repeat constructor. }
  unfold values in *. simpl in *. apply Forall_cons in Hn as [Hv' Hd].
  destruct (String.eqb k' "misc_singles"); simpl; constructor; auto.
Qed.
End Mapping.

(** C1 fails on [overwrite_input] with threshold 0.85 and
    [min_group_size = 3]: the three records described as [misc_singles] form
    a cluster that is stored under the name [misc_singles]; the remaining
    record goes to the pool, and storing the pool under the same key
    replaces the cluster.  The mapping returned holds one record out of
    four. *)
Theorem misc_singles_overwrites_group :
  let result := _group_similar_images axis_embed overwrite_input (85 # 100)%Q 3 in
  clusters axis_embed overwrite_input (85 # 100)%Q
    = [[record "a.jpg" "misc_singles"; record "c.jpg" "misc_singles";
        record "d.jpg" "misc_singles"];
       [record "b.jpg" "blue sky"]]
  ∧ result = [("misc_singles", [record "b.jpg" "blue sky"])]
  ∧ ¬ concat (values result) ≡ₚ overwrite_input.
Proof.
  split; [by vm_compute|]. split; [by vm_compute|].
  intros Hp. apply Permutation_length in Hp. vm_compute in Hp. discriminate.
Qed.

(** On [order_input] with [min_group_size = 2] the same assignment leaves
    [misc_singles] in the first position of the mapping, before the group
    [red_car], and the two records of the first cluster are gone. *)
Lemma misc_singles_not_last :
  map (λ e, (e.1, map original_name e.2))
    (_group_similar_images axis_embed order_input (85 # 100)%Q 2)
  = [("misc_singles", ["e.jpg"]); ("red_car", ["c.jpg"; "d.jpg"])].
Proof. by vm_compute. Qed.

(** C3 fails on [overwrite_input] (threshold 0.85, [min_group_size = 3]):
    by the naming rule the qualifying cluster is called [misc_singles], a
    name no group has yet; the pool is then given the same name without any
    check, so the two groups of the job share one name and the mapping has a
    single key. *)
Theorem misc_singles_name_collision :
  let cluster := [record "a.jpg" "misc_singles"; record "c.jpg" "misc_singles";
                  record "d.jpg" "misc_singles"] in
  base_group_name cluster = "misc_singles"
  ∧ named_groups axis_embed overwrite_input (85 # 100)%Q 3
    = [("misc_singles", cluster)]
  ∧ pooled_records axis_embed overwrite_input (85 # 100)%Q 3
    = [record "b.jpg" "blue sky"]
  ∧ keys (_group_similar_images axis_embed overwrite_input (85 # 100)%Q 3)
    = ["misc_singles"].
Proof. repeat split; by vm_compute. Qed.

End MappingFacts.

(** ** File placement *)
Module OrganizerFacts.
Import Grouper Organizer.

#[local] Instance by_name_trans : Transitive by_name.
Proof. intros a b c Hab Hbc. unfold by_name in *. by etrans. Qed.

Lemma insert_by_name_perm x l : insert_by_name x l ≡ₚ x :: l.
Proof.
  induction l as [|y l IH]; simpl; [done|].
  destruct (String.leb _ _); [done|]. by rewrite IH, Permutation_swap.
Qed.

Lemma sort_by_name_perm l : sort_by_name l ≡ₚ l.
Proof.
  induction l as [|x l IH]; simpl; [done|].
  by rewrite insert_by_name_perm, IH.
Qed.

Lemma insert_by_name_hd y x l :
  by_name y x → HdRel by_name y l → HdRel by_name y (insert_by_name x l).
Proof.
  intros Hyx Hyl. destruct l as [|z l]; simpl; [by constructor|].
  destruct (String.leb _ _); constructor; [done|].
  by inversion Hyl.
Qed.

Lemma insert_by_name_sorted x l :
  Sorted by_name l → Sorted by_name (insert_by_name x l).
Proof.
  induction 1 as [|y l Hl IH Hy]; simpl; [by repeat constructor|].
  destruct (String.leb (original_name x) (original_name y)) eqn:E.
  - constructor; [by constructor|]. constructor. unfold by_name, String.le.
    by rewrite E.
  - constructor; [done|]. apply insert_by_name_hd; [|done].
    destruct (String.leb_total (original_name x) (original_name y)) as [Hxy|Hyx];
      [congruence|].
    unfold by_name, String.le. by rewrite Hyx.
Qed.

Lemma sort_by_name_sorted l : StronglySorted by_name (sort_by_name l).
Proof.
  apply Sorted_StronglySorted; [apply by_name_trans|].
  induction l as [|x l IH]; simpl; [constructor|].
  by apply insert_by_name_sorted.
Qed.

Lemma enumerate_from_lookup {A} (l : list A) : ∀ start k x,
  l !! k = Some x → enumerate_from start l !! k = Some ((start + k)%nat, x).
Proof.
  induction l as [|y l IH]; intros start k x Hk; [done|].
  unfold enumerate_from in *. simpl.
  destruct k as [|k]; simpl in *.
  - rewrite Nat.add_0_r. congruence.
  - rewrite (IH (S start) k x Hk). do 2 f_equal. lia.
Qed.

(** The sequence field [{i:02d}]: it reads back as [i], has at least two
    characters, and exactly two up to 99. *)
Lemma pad2_reads i :
  Nat.of_uint <$> NilZero.uint_of_string (pad2 i) = Some i.
Proof.
  assert (Nat.of_uint <$> NilZero.uint_of_string (of_nat i) = Some i) as Hi.
  { unfold of_nat. rewrite <- (Unsigned.of_to i) at 2.
    destruct (Nat.to_uint i); [done|..]; by rewrite NilZero.usu. }
  unfold pad2. destruct (Nat.ltb _ _) eqn:E; [|done].
  destruct (of_nat i) as [|c s] eqn:Es; [discriminate Hi|].
  destruct s as [|c' s]; [|apply Nat.ltb_lt in E; simpl in E; lia].
  clear E Es. revert Hi. PyStrFacts.by_char c.
Qed.

Lemma pad2_two_digits i : (i < 100)%nat → String.length (pad2 i) = 2%nat.
Proof.
  intros Hi. do 100 (destruct i as [|i]; [reflexivity|]). lia.
Qed.

Lemma organize_group_ok copy_files group_name images :
  images ≠ [] → (organize_group copy_files group_name images).2 = true.
Proof.
  intros Hne. unfold organize_group.
  destruct (Nat.ltb 1 (length images)); [done|]. by destruct images.
Qed.

(** The calls of [_organize_files]: the output folder, then the calls of
    each group in the order of the mapping. *)
Lemma organize_files_calls groups output_folder copy_files :
  Forall (λ g, g ≠ []) (values groups) →
  _organize_files groups output_folder copy_files
  = (MkdirOutput output_folder
       :: concat (map (λ e, (organize_group copy_files e.1 e.2).1) groups),
     true).
Proof.
  intros Hne. unfold _organize_files.
  assert (organize_groups copy_files groups
          = (concat (map (λ e, (organize_group copy_files e.1 e.2).1) groups),
             true)) as ->; [|done].
  induction groups as [|[name images] groups IH]; [done|].
  unfold values in Hne. simpl in Hne. apply Forall_cons in Hne as [Hi Hg].
  simpl. pose proof (organize_group_ok copy_files name images Hi) as Hok.
  destruct (organize_group copy_files name images) as [ops ok].
  simpl in Hok. subst ok. by rewrite (IH Hg).
Qed.


(** A group of 100 members: the last sequence field has three digits. *)
Example sequence_field_100 : pad2 99 = "99" ∧ pad2 100 = "100".
Proof. split; reflexivity. Qed.

End OrganizerFacts.

(** ** The job *)
Module JobFacts.
Import Grouper Organizer Job OrganizerFacts.

Lemma find_images_spec order entries p :
  p ∈ find_images order entries
  ↔ p ∈ entries
    ∧ ∃ ext, ext ∈ order
        ∧ (endswith (path_name p) ext = true
           ∨ endswith (path_name p) (upper ext) = true).
Proof.
  unfold find_images, glob_rec. rewrite !list_elem_of_In, in_flat_map. split.
  - intros (ext & Hext & Hp). apply in_app_or in Hp.
    rewrite !List.filter_In in Hp.
    destruct Hp as [[Hp He]|[Hp He]]; (split; [done|]); exists ext;
      (split; [by apply list_elem_of_In | auto]).
  - intros (Hp & ext & Hext & He). exists ext.
    split; [by apply list_elem_of_In|].
    apply in_or_app. rewrite !List.filter_In. tauto.
Qed.

Lemma last_cons_default {A} (l : list A) x d :
  List.last (x :: l) d = List.last l x.
Proof.
  revert x d. induction l as [|y l IH]; intros x d; [done|].
  change (List.last (y :: l) d = List.last (y :: l) x).
  by rewrite (IH y d), (IH y x).
Qed.

Open Scope Q_scope.

Lemma file_progress_exact i n :
  file_progress i n = inject_Z (Z.of_nat i) / inject_Z (Z.of_nat n) * 50.
Proof. reflexivity. Qed.

Lemma file_progress_eq i n :
  file_progress i n == 50 * inject_Z (Z.of_nat i) / inject_Z (Z.of_nat n).
Proof. rewrite file_progress_exact. unfold Qdiv. ring. Qed.

Lemma full_progress n :
  n ≠ 0%nat → 50 == 50 * inject_Z (Z.of_nat n) / inject_Z (Z.of_nat n).
Proof.
  intros Hn. field. intros H0. unfold Qeq in H0. simpl in H0. lia.
Qed.

Lemma file_progress_mono i j n :
  (i ≤ j)%nat → file_progress i n <= file_progress j n.
Proof.
  intros Hij. rewrite !file_progress_exact. unfold Qdiv.
  apply Qmult_le_compat_r; [|done].
  apply Qmult_le_compat_r; [rewrite <- Zle_Qle; lia|].
  apply Qinv_le_0_compat. replace 0 with (inject_Z 0) by done.
  rewrite <- Zle_Qle. lia.
Qed.

Lemma file_progress_nonneg i n : 0 <= file_progress i n.
Proof.
  assert (file_progress 0 n == 0) as <-
    by (rewrite file_progress_exact; unfold Qdiv; ring).
  apply file_progress_mono. lia.
Qed.

Lemma file_progress_le_50 i n : (i < n)%nat → file_progress i n <= 50.
Proof.
  intros Hin. rewrite file_progress_exact.
  apply Qle_trans with (1 * 50); [|rewrite Qmult_1_l; apply Qle_refl].
  apply Qmult_le_compat_r; [|done].
  apply Qle_shift_div_r.
  - replace 0 with (inject_Z 0) by done. rewrite <- Zlt_Qlt. lia.
  - rewrite Qmult_1_l, <- Zle_Qle. lia.
Qed.

Close Scope Q_scope.

Lemma enumerate_from_bounds {A} (l : list A) : ∀ start,
  Forall (λ e, (start ≤ e.1 < start + length l)%nat) (enumerate_from start l).
Proof.
  induction l as [|x l IH]; intros start; [constructor|].
  unfold enumerate_from in *. simpl. constructor; [simpl; lia|].
  eapply Forall_impl; [apply (IH (S start))|]. intros e He. simpl in *. lia.
Qed.

Lemma enumerate_from_snd {A} (l : list A) start : (enumerate_from start l).*2 = l.
Proof. unfold enumerate_from. apply snd_zip. by rewrite length_seq. Qed.

Lemma enumerate_from_cons {A} (x : A) l start :
  enumerate_from start (x :: l) = (start, x) :: enumerate_from (S start) l.
Proof. done. Qed.

Lemma updates_app evs evs' : updates (evs ++ evs') = updates evs ++ updates evs'.
Proof. unfold updates. apply omap_app. Qed.

Lemma updates_cons_update j evs : updates (Update j :: evs) = j :: updates evs.
Proof. done. Qed.

Lemma updates_cons_grouped g evs : updates (Grouped g :: evs) = updates evs.
Proof. done. Qed.

Lemma updates_calls evs :
  Forall (λ e, is_fs_call e = true) evs → updates evs = [].
Proof.
  induction 1 as [|e evs He Hevs IH]; [done|].
  destruct e; done.
Qed.

Lemma progress_after_calls evs j :
  Forall (λ e, is_fs_call e = true) evs →
  progress_after (evs ++ [Update j]) = [].
Proof.
  induction 1 as [|e evs He Hevs IH]; [done|].
  destruct e; done.
Qed.

Lemma last_Forall {A} (P : A → Prop) l d :
  P d → Forall P l → P (List.last l d).
Proof.
  revert d. induction l as [|x l IH]; intros d Hd Hl; [done|].
  rewrite last_cons_default. apply Forall_cons in Hl as [Hx Hl]. by apply IH.
Qed.

Section Run.
Context {arith : ProgressArith} {F : Type} {num : Numeric F}.
Variable w : world F.

(** The per-image loop in closed form. *)
Lemma describe_loop_spec n files : ∀ j processed,
  describe_loop w n files j processed
  = (List.last
       (map (λ e, with_file (path_name e.2) e.1 (file_progress e.1 n) j) files)
       j,
     processed ++ omap (λ e, process_image w e.2) files,
     flat_map (file_events w n j) files).
Proof.
  induction files as [|[i p] files IH]; intros j processed.
  { simpl. by rewrite app_nil_r. }
  cbn [describe_loop]. rewrite IH. cbn [flat_map file_events fst snd app].
  f_equal. f_equal.
  - cbn [map fst snd]. by rewrite last_cons_default.
  - cbn [omap list_omap fst snd].
    destruct (process_image w p); [by rewrite <- app_assoc | done].
Qed.
Lemma run_ops_calls ops :
  Forall (λ e, is_fs_call e = true) (run_ops w ops).1.
Proof.
  induction ops as [|op ops IH]; simpl; [constructor|].
  destruct (fs_error w op); [constructor|].
  destruct (run_ops w ops) as [evs e]. simpl in *. by constructor.
Qed.

Lemma run_ops_quiet ops :
  (∀ op, fs_error w op = None) → run_ops w ops = (map FsCall ops, None).
Proof.
  intros Hq. induction ops as [|op ops IH]; simpl; [done|].
  by rewrite Hq, IH.
Qed.

Variables (s : settings F) (output_folder : string) (order : list string).
Variable job0 : job.

(** [_process_job] in closed form, when images are found: the images, the
    job after each locked update, the records, the mapping and the file
    system calls are named in turn. *)
Lemma process_job_events :
  let files := find_images order (listing w) in
  let n := length files in
  let j1 := with_status st_running job0 in
  let j2 := with_total n j1 in
  let j3 :=
    List.last
      (map (λ e, with_file (path_name e.2) e.1 (file_progress e.1 n) j2)
         (enumerate files))
      j2 in
  let processed := omap (λ e, process_image w e.2) (enumerate files) in
  let j4 := with_phase "Grouping similar images..." 50%Q j3 in
  let groups :=
    _group_similar_images (embed w) processed (similarity_threshold s)
      (min_group_size s) in
  let j5 := with_phase "Organizing files..." 75%Q j4 in
  let ops :=
    MkdirOutput output_folder
      :: concat (map (λ e, (organize_group (copy_files s) e.1 e.2).1) groups) in
  files ≠ [] →
  _process_job w s output_folder order job0
  = [Update j1; Update j2] ++ flat_map (file_events w n j2) (enumerate files)
    ++ Update j4 ::
       match encode_error w (map description processed) with
       | Some msg => [Update (failed msg j4)]
       | None =>
           Grouped groups :: Update j5 :: (run_ops w ops).1
           ++ [Update (match (run_ops w ops).2 with
                       | Some msg => failed msg j5
                       | None => finished (summary processed groups) j5
                       end)]
       end.
Proof.
  intros files n j1 j2 j3 processed j4 groups j5 ops Hne.
  subst ops j5 groups j4 processed j3 j2 j1 n.
  unfold _process_job. unfold files in *.
  destruct (find_images order (listing w)) as [|f fs]; [done|].
  rewrite describe_loop_spec.
  destruct (encode_error w _) as [msg|].
  { simpl. by rewrite <- ?app_assoc. }
  rewrite organize_files_calls by apply MappingFacts.groups_nonempty.
  destruct (run_ops w _) as [calls [msg|]]; simpl;
    by rewrite <- ?app_assoc.
Qed.
End Run.

(** C9: when no file under the input folder is matched, the job writes the
    running status, the count 0 and then the failure, with the message of
    the code; nothing else happens: no image is processed, nothing is
    grouped, no file system call is issued (so the output folder is not
    created), and no further attempt is made. *)
Theorem no_images_found {arith : ProgressArith} {F : Type} {num : Numeric F}
    (w : world F) (s : settings F) (output_folder : string) (order : list string)
    (job0 : job) :
  find_images order (listing w) = [] →
  let j1 := with_status st_running job0 in
  let j2 := with_total 0 j1 in
  let final := failed "No images found in the specified folder" j2 in
  let trace := _process_job w s output_folder order job0 in
  trace = [Update j1; Update j2; Update final]
  ∧ job_status final = st_error
  ∧ job_error final = Some "No images found in the specified folder"
  ∧ progress final = progress job0
  ∧ Forall (λ e, is_update e = true) trace.
Proof.
  intros Hnone. cbv zeta. unfold _process_job. rewrite Hnone. simpl.
  repeat split; by repeat constructor.
Qed.

Lemma no_images_found_witness :
  find_images image_extensions
    (listing (calm_world ["/in/notes.txt"; "/in/photo.gif"] (λ _, "red car")))
  = []
  ∧ job_status
      (List.last
         (history new_job
            (_process_job
               (calm_world ["/in/notes.txt"; "/in/photo.gif"] (λ _, "red car"))
               default_settings "/out" image_extensions new_job))
         new_job)
    = st_error.
Proof.
  split; [reflexivity|].
  destruct (no_images_found
              (calm_world ["/in/notes.txt"; "/in/photo.gif"] (λ _, "red car"))
              default_settings "/out" image_extensions new_job)
    as [-> _]; reflexivity.
Defined.

(** C8 fails on extensions in mixed case: only the lower-case and the
    upper-case spelling of each extension are looked for, so of the four
    image files below the two spelt [.Jpg] and [.PnG] are not found,
    although their extensions are jpg and png once case is ignored; a folder
    holding only such files fails as if it had no image. *)
Theorem mixed_case_extension_missed :
  find_images image_extensions
    ["/in/photo.Jpg"; "/in/scan.PnG"; "/in/a.jpg"; "/in/sub/b.JPG"]
  = ["/in/a.jpg"; "/in/sub/b.JPG"]
  ∧ lower (path_suffix "/in/photo.Jpg") = ".jpg"
  ∧ lower (path_suffix "/in/scan.PnG") = ".png"
  ∧ _process_job (calm_world ["/in/photo.Jpg"] (λ _, "red car"))
      default_settings "/out" image_extensions new_job
    = [Update (with_status st_running new_job);
       Update (with_total 0 (with_status st_running new_job));
       Update (failed "No images found in the specified folder"
                 (with_total 0 (with_status st_running new_job)))].
Proof. repeat split; by vm_compute. Qed.

Section Progress.
Context {arith : ProgressArith} {F : Type} {num : Numeric F}.
Variable w : world F.

Lemma progress_after_loop n j jx tail : ∀ files start,
  (start + length files = n)%nat →
  progress jx = 50%Q →
  progress_after (Update jx :: tail) = [] →
  Forall2 (after_file n)
    (progress_after
       (flat_map (file_events w n j) (enumerate_from start files)
          ++ Update jx :: tail))
    (seq start (length files)).
Proof.
  induction files as [|p files IH]; intros start Hlen Hjx Htail.
  { cbn [progress_after] in Htail. simpl. rewrite Htail. constructor. }
  rewrite enumerate_from_cons. specialize (IH (S start)).
  destruct files as [|q files].
  - cbn [flat_map file_events app enumerate_from length seq zip zip_with].
    cbn [progress_after]. cbn [progress_after] in Htail. rewrite Htail.
    repeat constructor; cbn [fst snd].
    rewrite Hjx. simpl in Hlen. by rewrite decide_True by lia.
  - rewrite enumerate_from_cons in *.
    cbn [flat_map file_events app] in *. cbn [progress_after].
    cbn [length seq]. constructor.
    + split; [done|]. cbn [fst snd progress with_file].
      simpl in Hlen. by rewrite decide_False by lia.
    + apply IH; [simpl in *; lia | done | done].
Qed.
End Progress.




Ltac q_const := unfold progress_le, Qle, Qeq; simpl; lia.

Section Views.
Context {F : Type} {num : Numeric F}.
Variable w : world F.

Lemma updates_loop n j (l : list (nat * string)) :
  updates (flat_map (file_events w n j) l)
  = map (λ e, with_file (path_name e.2) e.1 (file_progress e.1 n) j) l.
Proof. induction l as [|e l IH]; [done|]. simpl. by rewrite <- IH. Qed.

(** The states of a run that found images, seen as status and progress. *)
Lemma history_view s output_folder order :
  let files := find_images order (listing w) in
  let n := length files in
  files ≠ [] →
  ∃ ending, ending ∈ endings
    ∧ map view (history new_job (_process_job w s output_folder order new_job))
      = [(st_pending, 0%Q); (st_running, 0%Q); (st_running, 0%Q)]
        ++ map (λ e, (st_running, file_progress e.1 n)) (enumerate files)
        ++ (st_running, 50%Q) :: ending.
Proof.
  intros files n Hne.
  pose proof (process_job_events w s output_folder order new_job Hne) as He.
  cbv zeta in He. fold files n in He. rewrite He. clear He.
  set (j2 := with_total n (with_status st_running new_job)).
  set (j3 := List.last _ j2).
  assert (job_status j3 = st_running) as Hrun.
  { apply (last_Forall (λ j, job_status j = st_running)); [done|].
    apply Forall_fmap, Forall_true. done. }
  clearbody j3. subst j2. unfold history.
  destruct (encode_error w _) as [msg|].
  { exists [(st_error, 50%Q)]. split; [apply list_elem_of_here|].
    rewrite !updates_app, updates_loop, !updates_cons_update.
    cbn [map app]. rewrite !map_app, map_map.
    unfold view. simpl. by rewrite Hrun. }
  match goal with |- context [run_ops w ?o] =>
    pose proof (run_ops_calls w o) as Hc;
    destruct (run_ops w o) as [calls [msg|]] end; cbn [fst snd] in *.
  - exists [(st_running, 75%Q); (st_error, 75%Q)].
    split; [apply list_elem_of_further, list_elem_of_here|].
    rewrite !updates_app, updates_loop, !updates_cons_update,
      updates_cons_grouped, updates_cons_update, updates_app,
      (updates_calls _ Hc).
    cbn [map app]. rewrite !map_app, map_map.
    unfold view. simpl. by rewrite Hrun.
  - exists [(st_running, 75%Q); (st_completed, 100%Q)].
    split; [do 2 apply list_elem_of_further; apply list_elem_of_here|].
    rewrite !updates_app, updates_loop, !updates_cons_update,
      updates_cons_grouped, updates_cons_update, updates_app,
      (updates_calls _ Hc).
    cbn [map app]. rewrite !map_app, map_map.
    unfold view. simpl. by rewrite Hrun.
Qed.
End Views.

Lemma StronglySorted_fmap_inv {A B} (f : A → B) (R : relation B) l :
  StronglySorted R (map f l) → StronglySorted (λ x y, R (f x) (f y)) l.
Proof.
  induction l as [|x l IH]; intros Hs; [constructor|].
  simpl in Hs. apply StronglySorted_cons in Hs as [Hx Hl].
  constructor; [by apply IH|].
  apply Forall_forall. intros y Hy.
  apply (proj1 (Forall_forall _ _) Hx). by apply list_elem_of_fmap_2.
Qed.

Lemma StronglySorted_lookup {A} (R : relation A) `{!Reflexive R} l i k a b :
  StronglySorted R l → (i ≤ k)%nat → l !! i = Some a → l !! k = Some b → R a b.
Proof.
  intros Hs. revert i k. induction Hs as [|x l Hl IH Hx]; intros i k Hik Hi Hk.
  { by rewrite lookup_nil in Hi. }
  destruct i as [|i], k as [|k]; simpl in *; try lia.
  - by simplify_eq.
  - simplify_eq. eapply Forall_forall; [exact Hx|]. by eapply list_elem_of_lookup_2.
  - eapply IH; [|done..]. lia.
Qed.

#[local] Instance progress_le_refl : Reflexive progress_le.
Proof. intros v. apply Qle_refl. Qed.

Section Sorted.
Variable n : nat.

Abbreviation loop_view := (λ e : nat * string, (st_running, file_progress e.1 n)).

Lemma loop_views_sorted : ∀ (files : list string) start T,
  (start + length files = n)%nat →
  StronglySorted progress_le T → Forall (λ v, (50 <= v.2)%Q) T →
  StronglySorted progress_le (map loop_view (enumerate_from start files) ++ T).
Proof.
  induction files as [|p files IH]; intros start T Hlen HT H50; [done|].
  rewrite enumerate_from_cons. cbn [map app]. constructor.
  { apply IH; [simpl in Hlen; lia | done | done]. }
  apply Forall_app. split.
  - apply Forall_fmap.
    eapply Forall_impl; [apply (enumerate_from_bounds files (S start))|].
    intros e He. apply file_progress_mono. simpl in *. lia.
  - eapply Forall_impl; [exact H50|]. intros v Hv.
    unfold progress_le. simpl. eapply Qle_trans; [|exact Hv].
    apply file_progress_le_50. simpl in Hlen. lia.
Qed.

Lemma loop_views_bounds (files : list string) :
  length files = n →
  Forall (λ v, v.1 = st_running ∧ (0 <= v.2)%Q ∧ (v.2 <= 50)%Q)
    (map loop_view (enumerate files)).
Proof.
  intros Hlen. apply Forall_fmap.
  eapply Forall_impl; [apply (enumerate_from_bounds files 0)|].
  intros e He. simpl in *. split; [done|].
  split; [apply file_progress_nonneg | apply file_progress_le_50; lia].
Qed.
End Sorted.

Lemma endings_spec ending :
  ending ∈ endings →
  StronglySorted progress_le ((st_running, 50%Q) :: ending)
  ∧ Forall (λ v, (50 <= v.2)%Q) ((st_running, 50%Q) :: ending)
  ∧ Forall (λ v, (v.2 == 100)%Q → v.1 = st_completed)
      ((st_running, 50%Q) :: ending)
  ∧ ∃ init final, (st_running, 50%Q) :: ending = init ++ [final]
      ∧ Forall (λ v, is_terminal v.1 = false) init
      ∧ is_terminal final.1 = true.
Proof.
  unfold endings. intros Hin.
  repeat (apply elem_of_cons in Hin as [->|Hin]);
    [..|by apply elem_of_nil in Hin].
  - split; [repeat constructor; q_const|].
    split; [repeat constructor; q_const|].
    split; [repeat constructor; simpl; intros Hq; try done; exfalso; revert Hq; q_const|].
    exists [(st_running, 50%Q)], (st_error, 50%Q). by repeat constructor.
  - split; [repeat constructor; q_const|].
    split; [repeat constructor; q_const|].
    split; [repeat constructor; simpl; intros Hq; try done; exfalso; revert Hq; q_const|].
    exists [(st_running, 50%Q); (st_running, 75%Q)], (st_error, 75%Q).
    by repeat constructor.
  - split; [repeat constructor; q_const|].
    split; [repeat constructor; q_const|].
    split; [repeat constructor; simpl; intros Hq; try done; exfalso; revert Hq; q_const|].
    exists [(st_running, 50%Q); (st_running, 75%Q)], (st_completed, 100%Q).
    by repeat constructor.
Qed.

Lemma found_views_ordered (files : list string) ending :
  ending ∈ endings →
  well_ordered
    ([(st_pending, 0%Q); (st_running, 0%Q); (st_running, 0%Q)]
     ++ map (λ e, (st_running, file_progress e.1 (length files))) (enumerate files)
     ++ (st_running, 50%Q) :: ending).
Proof.
  intros Hin.
  destruct (endings_spec _ Hin)
    as (Hs & H50 & H100 & init & final & Heq & Hinit & Hfin).
  pose proof (loop_views_bounds (length files) files eq_refl) as Hb.
  set (loop := map _ (enumerate files)) in *.
  set (T := (st_running, 50%Q) :: ending) in *.
  assert (Forall (λ v : status * Q, (0 <= v.2)%Q) (loop ++ T)) as H0.
  { apply Forall_app. split.
    - eapply Forall_impl; [exact Hb|]. by intros v (_ & Hv & _).
    - eapply Forall_impl; [exact H50|]. intros v Hv.
      eapply Qle_trans; [|exact Hv]. q_const. }
  split; [|split].
  - apply StronglySorted_app_2.
    + intros x1 x2 Hx1 Hx2. unfold progress_le.
      assert (x1.2 = 0%Q) as ->.
      { repeat (apply elem_of_cons in Hx1 as [->|Hx1]); try done.
        by apply elem_of_nil in Hx1. }
      by apply (proj1 (Forall_forall _ _) H0).
    + repeat constructor; q_const.
    + apply (loop_views_sorted (length files) files 0%nat T); done.
  - apply Forall_app. split.
    { repeat constructor; simpl; intros Hq; exfalso; revert Hq; q_const. }
    apply Forall_app. split; [|done].
    eapply Forall_impl; [exact Hb|]. intros v (_ & _ & Hv) Hq. exfalso.
    rewrite Hq in Hv. revert Hv. q_const.
  - exists ([(st_pending, 0%Q); (st_running, 0%Q); (st_running, 0%Q)]
            ++ loop ++ init), final.
    split; [by rewrite Heq, <- !app_assoc|]. split; [|done].
    apply Forall_app. split; [by repeat constructor|].
    apply Forall_app. split; [|done].
    eapply Forall_impl; [exact Hb|]. by intros v (-> & _).
Qed.


Section Skipped.
Context {arith : ProgressArith} {F : Type} {num : Numeric F}.
Variable w : world F.

Lemma skipped_records (files : list string) start :
  (∀ p, p ∈ files → process_image w p = None) →
  omap (λ e, process_image w e.2) (enumerate_from start files) = []
  ∧ ∀ n j, flat_map (file_events w n j) (enumerate_from start files)
           = flat_map (skipped_events n j) (enumerate_from start files).
Proof.
  revert start. induction files as [|p files IH]; intros start Hskip; [done|].
  rewrite enumerate_from_cons.
  assert (process_image w p = None) as Hp by (apply Hskip; left).
  destruct (IH (S start)) as [Ho Hf].
  { intros q Hq. apply Hskip. by right. }
  split.
  - simpl. by rewrite Hp.
  - intros n j. simpl. rewrite Hp, Hf. reflexivity.
Qed.
End Skipped.



End JobFacts.

(** ** Shapes of the sanitized strings *)
Module ShapeFacts.
Import PyStrFacts Sanitizer SanitizerFacts Shape.

Section Class.
Variable p : ascii → bool.

Lemma no_adjacent_tail c l : no_adjacent p (c :: l) = true → no_adjacent p l = true.
Proof.
  destruct l as [|d l]; [done|]. simpl. intros H. by apply andb_prop in H as [_ H].
Qed.

Lemma no_adjacent_take n l : no_adjacent p l = true → no_adjacent p (take n l) = true.
Proof.
  revert n. induction l as [|c l IH]; intros n Hl; [by destruct n|].
  destruct n as [|n]; [done|].
  pose proof (IH n (no_adjacent_tail _ _ Hl)) as Ht.
  destruct l as [|d l]; [by destruct n|]. destruct n as [|n]; [done|].
  simpl in *. apply andb_prop in Hl as [Hcd _]. by rewrite Hcd.
Qed.

Lemma head_free_take n l : head_free p l = true → head_free p (take n l) = true.
Proof. destruct l, n; done. Qed.

Lemma drop_while_split f l :
  ∃ pre, l = pre ++ drop_while f l ∧ Forall (λ c, f c = true) pre.
Proof.
  induction l as [|c l (pre & Hl & Hpre)]; simpl; [by exists []|].
  destruct (f c) eqn:E.
  - exists (c :: pre). split; [by rewrite Hl at 1 | by constructor].
  - by exists [].
Qed.

Lemma no_adjacent_drop_while f l :
  no_adjacent p l = true → no_adjacent p (drop_while f l) = true.
Proof.
  induction l as [|c l IH]; [done|]. intros Hl. simpl drop_while.
  destruct (f c); [|done]. by apply IH, (no_adjacent_tail c).
Qed.

Lemma head_free_drop_while l : head_free p (drop_while p l) = true.
Proof.
  induction l as [|c l IH]; [done|]. simpl.
  destruct (p c) eqn:E; [done|]. simpl. by rewrite E.
Qed.

(** [rstrip] keeps a prefix. *)
Lemma rstrip_by_prefix f l : ∃ k, rstrip_by f l = take k l.
Proof.
  unfold rstrip_by. destruct (drop_while_split f (rev l)) as (pre & Hl & _).
  exists (length (rev (drop_while f (rev l)))).
  apply (f_equal (@rev ascii)) in Hl. rewrite rev_involutive, rev_app_distr in Hl.
  rewrite Hl at 3. by rewrite take_app_length.
Qed.

Lemma last_free_rstrip_by l : last_free p (rstrip_by p l) = true.
Proof.
  unfold last_free, rstrip_by. rewrite rev_involutive. apply head_free_drop_while.
Qed.

Lemma no_adjacent_rstrip_by f l :
  no_adjacent p l = true → no_adjacent p (rstrip_by f l) = true.
Proof.
  intros Hl. destruct (rstrip_by_prefix f l) as [k ->]. by apply no_adjacent_take.
Qed.

Lemma head_free_rstrip_by f l :
  head_free p l = true → head_free p (rstrip_by f l) = true.
Proof.
  intros Hl. destruct (rstrip_by_prefix f l) as [k ->]. by apply head_free_take.
Qed.

(** [re.sub('<p>+', rep, s)] leaves no two neighbours in the class when
    [rep] itself is in it. *)
Lemma collapse_runs_shape rep l : ∀ b,
  no_adjacent p (collapse_runs p rep b l) = true
  ∧ (b = true → head_free p (collapse_runs p rep b l) = true).
Proof.
  induction l as [|c l IH]; intros b; [done|]. simpl.
  destruct (p c) eqn:Ec.
  - destruct b; [apply IH|]. split; [|done].
    destruct (IH true) as [Hn Hh]. specialize (Hh eq_refl).
    destruct (collapse_runs p rep true l) as [|d out]; [done|].
    simpl in *. apply negb_true_iff in Hh. rewrite Hh in *.
    by rewrite andb_false_r.
  - destruct (IH false) as [Hn _]. split; [|by intros _; simpl; rewrite Ec].
    destruct (collapse_runs p rep false l) as [|d out]; [done|].
    simpl in *. by rewrite Ec.
Qed.

Lemma last_free_tail c d l :
  last_free p (c :: d :: l) = true → last_free p (d :: l) = true.
Proof.
  unfold last_free. simpl. intros H.
  destruct (rev l ++ [d]) as [|x r] eqn:E; [by destruct (rev l)|]. done.
Qed.
End Class.

(** X1: whatever the description, the base of the name that
    [_generate_filename] builds has at most 100 characters, all matched by
    [\w] or hyphens, with no two underscores in a row and no underscore at
    the end. *)
Theorem filename_base_shape (description : string) :
  let base := chars (filename_base description) in
  (length base ≤ 100)%nat
  ∧ Forall (λ c, re_word c || Ascii.eqb c "-" = true) base
  ∧ no_adjacent (Ascii.eqb "_") base = true
  ∧ last_free (Ascii.eqb "_") base = true.
Proof.
  intros base. split.
  { unfold base. rewrite length_chars. apply filename_base_length. }
  split; [apply filename_base_class|].
  unfold base, filename_base, rstrip_char. rewrite chars_str.
  split; [|apply last_free_rstrip_by].
  apply no_adjacent_rstrip_by.
  assert (∀ s, no_adjacent (Ascii.eqb "_")
                 (chars (re_sub_runs (Ascii.eqb "_") "_" s)) = true) as Hc.
  { intros s. unfold re_sub_runs. rewrite chars_str. apply collapse_runs_shape. }
  destruct (Nat.ltb 100 _); [|apply Hc].
  unfold truncate. rewrite chars_str. apply no_adjacent_take, Hc.
Qed.

Lemma str_app l1 l2 : str (l1 ++ l2) = str l1 +:+ str l2.
Proof. induction l1 as [|c l1 IH]; simpl; [done | by rewrite IH]. Qed.

Lemma split_aux_nonempty l : ∀ cur,
  cur ≠ [] ∨ head_free isspace l = true ∧ l ≠ [] → split_aux cur l ≠ [].
Proof.
  induction l as [|c l IH]; intros cur Hc.
  { destruct Hc as [Hc|[_ Hc]]; [by destruct cur | done]. }
  simpl. destruct (isspace c) eqn:Ec.
  - destruct Hc as [Hc|[Hc _]]; [by destruct cur|]. simpl in Hc. by rewrite Ec in Hc.
  - apply IH. by left.
Qed.

(** A string whose whitespace is single spaces between words is its words
    joined by spaces. *)
Lemma join_split_aux l : ∀ cur,
  Forall (λ c, isspace c = true → c = " "%char) l →
  no_adjacent isspace l = true → last_free isspace l = true →
  (cur = [] → head_free isspace l = true) →
  String.concat " " (split_aux cur l) = str (rev cur ++ l).
Proof.
  induction l as [|c l IH]; intros cur Hsp Hadj Hlast Hhead.
  { simpl. rewrite app_nil_r. by destruct cur. }
  apply Forall_cons in Hsp as [Hc Hsp]. simpl split_aux.
  destruct (isspace c) eqn:Ec.
  - rewrite (Hc eq_refl) in *. clear Hc.
    destruct cur as [|x cur]; [by specialize (Hhead eq_refl)|].
    destruct l as [|d l]; [done|].
    assert (isspace d = false) as Ed.
    { destruct (isspace d) eqn:Ed; [|done]. exfalso.
      cbn [no_adjacent] in Hadj. rewrite Ed, Ec in Hadj. done. }
    pose proof (IH [] Hsp (no_adjacent_tail _ _ _ Hadj)
                  (last_free_tail _ _ _ _ Hlast)) as Hr.
    rewrite app_nil_l in Hr. specialize (Hr ltac:(by intros _; simpl; rewrite Ed)).
    pose proof (split_aux_nonempty (d :: l) []) as Hne.
    destruct (split_aux [] (d :: l)) as [|w ws].
    { exfalso. apply Hne; [|done]. right. simpl. by rewrite Ed. }
    change (String.concat " " (str (rev (x :: cur)) :: w :: ws))
      with (str (rev (x :: cur)) +:+ " " +:+ String.concat " " (w :: ws)).
    rewrite Hr, str_app. reflexivity.
  - rewrite (IH (c :: cur)); [simpl; by rewrite <- app_assoc| done | | | done].
    + by apply (no_adjacent_tail _ c).
    + destruct l as [|d l]; [done|]. by apply (last_free_tail _ c).
Qed.

Lemma clean_response_class response :
  Forall (λ c, re_word c || Ascii.eqb c "-" || Ascii.eqb c " " = true)
    (chars (clean_response response)).
Proof.
  unfold clean_response. apply Forall_strip.
  unfold re_sub_runs, re_keep. rewrite !chars_str.
  eapply Forall_collapse_runs_class; [done | | apply Forall_lfilter_true].
  intros c. simpl. by_char c.
Qed.

Lemma lower_no_capital c : in_range 65 90 (lower_char c) = false.
Proof. by_char c. Qed.

Lemma clean_response_spaces response :
  Forall (λ c, isspace c = true → c = " "%char) (chars (clean_response response)).
Proof.
  eapply Forall_impl; [apply clean_response_class|]. intros c. by_char c.
Qed.

Lemma clean_response_trim response :
  let d := chars (clean_response response) in
  no_adjacent isspace d = true ∧ head_free isspace d = true
  ∧ last_free isspace d = true.
Proof.
  intros d. unfold d, clean_response, strip. rewrite chars_str.
  split; [|split; [|apply last_free_rstrip_by]].
  - apply no_adjacent_rstrip_by, no_adjacent_drop_while.
    unfold re_sub_runs. rewrite chars_str. apply collapse_runs_shape.
  - apply head_free_rstrip_by, head_free_drop_while.
Qed.

Lemma clean_response_join response :
  String.concat " " (split (clean_response response)) = clean_response response.
Proof.
  destruct (clean_response_trim response) as (Hadj & Hhead & Hlast).
  unfold split. rewrite (join_split_aux _ []); try done.
  - apply str_chars.
  - apply clean_response_spaces.
Qed.

(** X2: the description that [_describe_image] returns for a response is
    made of word characters and hyphens, none of them a letter from A to Z,
    in words separated by single spaces: no other whitespace, none at either
    end, and joining its words with a space gives it back. *)
Theorem clean_response_shape (response : string) :
  let d := chars (clean_response response) in
  Forall (λ c, (re_word c || Ascii.eqb c "-" || Ascii.eqb c " ")
               && negb (in_range 65 90 c) = true) d
  ∧ Forall (λ c, isspace c = true → c = " "%char) d
  ∧ no_adjacent isspace d = true
  ∧ head_free isspace d = true
  ∧ last_free isspace d = true
  ∧ String.concat " " (split (clean_response response)) = clean_response response.
Proof.
  intros d.
  destruct (clean_response_trim response) as (Hadj & Hhead & Hlast).
  split; [|by repeat split; try apply clean_response_spaces;
             try apply clean_response_join].
  pose proof (clean_response_class response) as Hc.
  assert (Forall (λ c, in_range 65 90 c = false) d) as Hu.
  { apply clean_response_Forall; [done|]. apply Forall_fmap, Forall_true.
    intros c. apply lower_no_capital. }
  assert (Forall (λ c, (re_word c || Ascii.eqb c "-" || Ascii.eqb c " " = true)
                       ∧ in_range 65 90 c = false) d) as Hb by (by apply Forall_and).
  eapply Forall_impl; [exact Hb|]. intros c [-> ->]. done.
Qed.

End ShapeFacts.

(** ** The sanitizing rule, by words *)
Module RuleFacts.
Import PyStrFacts Sanitizer SanitizerFacts Shape ShapeFacts.

Lemma split_aux_spaces ws : ∀ cur,
  Forall (λ c, isspace c = true) ws → split_aux cur ws = split_aux cur [].
Proof.
  induction ws as [|c ws IH]; intros cur Hws; [done|].
  apply Forall_cons in Hws as [Hc Hws]. simpl. rewrite Hc, (IH [] Hws).
  by destruct cur.
Qed.

Lemma split_aux_app_spaces l ws : ∀ cur,
  Forall (λ c, isspace c = true) ws → split_aux cur (l ++ ws) = split_aux cur l.
Proof.
  induction l as [|c l IH]; intros cur Hws; [by apply split_aux_spaces|].
  simpl. destruct (isspace c); [|by apply IH].
  rewrite (IH [] Hws). done.
Qed.

Lemma split_aux_lstrip l :
  split_aux [] (lstrip_by isspace l) = split_aux [] l.
Proof.
  unfold lstrip_by. induction l as [|c l IH]; [done|]. simpl.
  destruct (isspace c) eqn:E; [done|]. simpl. by rewrite E.
Qed.

Lemma split_aux_rstrip l cur :
  split_aux cur (rstrip_by isspace l) = split_aux cur l.
Proof.
  unfold rstrip_by.
  destruct (drop_while_split isspace (rev l)) as (pre & Hl & Hpre).
  apply (f_equal (@rev ascii)) in Hl. rewrite rev_involutive, rev_app_distr in Hl.
  rewrite Hl at 2. symmetry. apply split_aux_app_spaces. by apply Forall_rev.
Qed.

(** [split] does not see the trimming. *)
Lemma split_aux_strip l :
  split_aux [] (rstrip_by isspace (lstrip_by isspace l)) = split_aux [] l.
Proof. by rewrite split_aux_rstrip, split_aux_lstrip. Qed.

(** [split] does not see the collapsing of the whitespace runs. *)
Lemma split_aux_collapse l : ∀ cur b,
  (b = true → cur = []) →
  split_aux cur (collapse_runs isspace " " b l) = split_aux cur l.
Proof.
  induction l as [|c l IH]; intros cur b Hb; [done|].
  simpl. destruct (isspace c) eqn:E.
  - destruct b.
    + rewrite (Hb eq_refl). by apply IH.
    + simpl. change (isspace " ") with true. cbv iota.
      rewrite (IH [] true) by done. done.
  - simpl. rewrite E. by apply IH.
Qed.

Lemma str_empty l : String.eqb (str l) "" = true ↔ l = [].
Proof.
  rewrite String.eqb_eq. split; [|by intros ->].
  intros Hs. apply (f_equal chars) in Hs. by rewrite chars_str in Hs.
Qed.

Lemma lfilter_absorb {A} (f g : A → bool) l :
  (∀ x, f x = true → g x = true) →
  List.filter f (List.filter g l) = List.filter f l.
Proof.
  intros Hfg. induction l as [|x l IH]; [done|]. simpl.
  destruct (g x) eqn:Eg; simpl.
  - by rewrite IH.
  - destruct (f x) eqn:Ef; [|done]. by rewrite (Hfg x Ef) in Eg.
Qed.

(** Deleting characters other than whitespace deletes them in each word,
    and the words that become empty disappear. *)
Lemma split_aux_filter (f : ascii → bool) l :
  (∀ c, isspace c = true → f c = true) →
  ∀ cur,
    split_aux (List.filter f cur) (List.filter f l)
    = List.filter (λ w, negb (String.eqb w ""))
        (map (re_keep f) (split_aux cur l)).
Proof.
  intros Hf.
  set (emit := λ (cur : list ascii) (rest : list string),
         match cur with [] => rest | _ => str (rev cur) :: rest end).
  assert (∀ cur rest,
            emit (List.filter f cur) rest
            = List.filter (λ w, negb (String.eqb w ""))
                (map (re_keep f) (emit cur [])) ++ rest) as Hone.
  { intros cur rest. destruct cur as [|x cur]; [done|].
    change (emit (x :: cur) []) with [str (rev (x :: cur))].
    change (map (re_keep f) [?a]) with [re_keep f a].
    unfold re_keep. rewrite chars_str, filter_rev.
    generalize (List.filter f (x :: cur)). intros [|y k]; [done|].
    change (List.filter ?P [?a]) with (if P a then [a] else []). cbn beta.
    assert (String.eqb (str (rev (y :: k))) "" = false) as ->; [|done].
    apply not_true_iff_false. rewrite str_empty. intros H.
    apply (f_equal (@rev ascii)) in H. by rewrite rev_involutive in H. }
  assert (∀ cur rest, emit cur rest = emit cur [] ++ rest) as Hemit.
  { intros [|x cur] rest; done. }
  induction l as [|c l IH]; intros cur.
  { change (List.filter f []) with (@nil ascii).
    change (split_aux (List.filter f cur) []) with (emit (List.filter f cur) []).
    change (split_aux cur []) with (emit cur []).
    by rewrite Hone, app_nil_r. }
  destruct (isspace c) eqn:Es.
  - assert (List.filter f (c :: l) = c :: List.filter f l) as ->.
    { simpl. by rewrite (Hf c Es). }
    assert (∀ cur' l', split_aux cur' (c :: l') = emit cur' (split_aux [] l')) as Hc.
    { intros cur' l'. simpl. by rewrite Es. }
    rewrite !Hc, (Hemit cur (split_aux [] l)), Hone, map_app, List.filter_app.
    f_equal.
    exact (IH []).
  - assert (∀ cur' l', split_aux cur' (c :: l') = split_aux (c :: cur') l') as Hc.
    { intros cur' l'. simpl. by rewrite Es. }
    rewrite (Hc cur), <- (IH (c :: cur)). simpl List.filter.
    destruct (f c); [by rewrite Hc | done].
Qed.

(** Mapping the characters within their class, whitespace or not, maps
    them in each word. *)
Lemma split_aux_map (g : ascii → ascii) l :
  (∀ c, isspace (g c) = isspace c) →
  ∀ cur,
    split_aux (map g cur) (map g l)
    = map (λ w, str (map g (chars w))) (split_aux cur l).
Proof.
  intros Hg.
  assert (∀ cur, str (map g (chars (str (rev cur)))) = str (rev (map g cur))) as Hw.
  { intros cur. by rewrite chars_str, map_rev. }
  induction l as [|c l IH]; intros cur.
  { simpl. destruct cur as [|x cur]; [done|]. cbn [map]. by rewrite Hw. }
  cbn [map split_aux]. rewrite Hg. destruct (isspace c).
  - pose proof (IH []) as IH0. cbn [map] in IH0.
    destruct cur as [|x cur]; [exact IH0|].
    cbn [map]. by rewrite Hw, IH0.
  - exact (IH (c :: cur)).
Qed.

(** The words of [split] hold no whitespace. *)
Lemma split_aux_words l : ∀ cur,
  Forall (λ c, isspace c = false) cur →
  Forall (λ w, Forall (λ c, isspace c = false) (chars w)) (split_aux cur l).
Proof.
  induction l as [|c l IH]; intros cur Hcur.
  { simpl. destruct cur as [|x cur]; [done|].
    constructor; [|done]. rewrite chars_str. by apply Forall_rev. }
  simpl. destruct (isspace c) eqn:E.
  - destruct cur as [|x cur]; [by apply IH|].
    constructor; [|by apply IH]. rewrite chars_str. by apply Forall_rev.
  - apply IH. by constructor.
Qed.

Lemma lower_char_space c : isspace (lower_char c) = isspace c.
Proof. by_char c. Qed.

Lemma lfilter_ext_Forall {A} (f g : A → bool) l :
  Forall (λ x, f x = g x) l → List.filter f l = List.filter g l.
Proof.
  induction 1 as [|x l Hx _ IH]; [done|]. simpl. by rewrite Hx, IH.
Qed.

(** The words of the cleaned description are the cleaned words of the
    response. *)
Lemma clean_response_words response :
  split (clean_response response) = cleaned_words response.
Proof.
  unfold cleaned_words, split, clean_response, strip, re_sub_runs, re_keep,
    remove_char, lower.
  rewrite !chars_str, split_aux_strip, split_aux_collapse by done.
  set (cls := λ c, re_word c || isspace c || Ascii.eqb c "-").
  rewrite (lfilter_absorb cls), (lfilter_absorb cls);
    [|intros c; unfold cls; by_char c..].
  rewrite (split_aux_filter cls _ ltac:(intros c; unfold cls; by_char c) []).
  rewrite (split_aux_map lower_char _ lower_char_space []), split_aux_strip.
  rewrite map_map. f_equal.
  apply Forall_fmap_ext_1.
  eapply Forall_impl; [apply (split_aux_words (chars response) []); constructor|].
  intros w Hw. cbn beta. unfold clean_word, re_keep, lower. rewrite !chars_str.
  f_equal. apply lfilter_ext_Forall, Forall_fmap.
  eapply Forall_impl; [exact Hw|]. intros c Hc. cbn beta in Hc.
  unfold compose, cls, word_class. rewrite lower_char_space, Hc.
  by destruct (re_word (lower_char c)).
Qed.

Lemma clean_word_class w :
  Forall (λ c, word_class c = true) (chars (clean_word w)).
Proof. unfold clean_word, re_keep. rewrite chars_str. apply Forall_lfilter_true. Qed.

(** Turning the spaces of words joined by spaces into underscores joins
    the words by underscores, when no word holds a space. *)
Lemma replace_join ws :
  Forall (λ w, Forall (λ c, Ascii.eqb c " " = false) (chars w)) ws →
  replace_char " " "_" (String.concat " " ws) = join_us ws.
Proof.
  assert (∀ w, Forall (λ c, Ascii.eqb c " " = false) (chars w) →
               map (λ x, if Ascii.eqb x " " then "_"%char else x) (chars w)
               = chars w) as Hw.
  { intros w Hall. induction Hall as [|c l Hc _ IH]; [done|].
    simpl. by rewrite Hc, IH. }
  unfold replace_char, join_us. intros Hws.
  induction Hws as [|w ws Hc Hws IH]; [done|].
  destruct ws as [|w' ws].
  { simpl. by rewrite (Hw w Hc), str_chars. }
  change (String.concat ?sep (w :: w' :: ws))
    with (w +:+ sep +:+ String.concat sep (w' :: ws)).
  rewrite !chars_app, !map_app, (Hw w Hc), !str_app, IH, str_chars.
  reflexivity.
Qed.

Lemma filename_base_steps response :
  filename_base (clean_response response)
  = rstrip_char "_" (truncate 100 (re_sub_runs (Ascii.eqb "_") "_"
      (replace_char " " "_" (clean_response response)))).
Proof.
  unfold filename_base.
  pose proof (second_filter_noop response) as Hn. cbv zeta in Hn.
  by rewrite Hn, truncate_if.
Qed.

Lemma filename_base_words response :
  filename_base (clean_response response) = amended_base response.
Proof.
  rewrite filename_base_steps. unfold amended_base. do 3 f_equal.
  rewrite <- (clean_response_join response) at 1.
  rewrite clean_response_words. apply replace_join.
  unfold cleaned_words. apply Forall_lfilter', Forall_fmap, Forall_true.
  intros w. cbn beta. eapply Forall_impl; [apply clean_word_class|].
  intros c. unfold word_class. by_char c.
Qed.

(** C4, as the code has it.  The candidate filename of an image is the
    sanitized base followed by the suffix of the original path in lower
    case, with no fallback for an empty base.  The base results from the
    response by the steps of the code, in this order: trim, lower-case,
    delete the two quote characters, delete what is neither matched by
    [\w] nor whitespace nor a hyphen, turn each run of whitespace into one
    space, trim, turn spaces into underscores, collapse runs of underscores,
    cut to 100 characters, strip trailing underscores.  Told by words: the
    words of the response are lower-cased and lose every character that is
    neither matched by [\w] nor a hyphen, and those left non-empty are
    joined by underscores before the collapsing, the cut and the stripping.
    The base has at most 100 characters; each of them is matched by [\w] or
    is a hyphen, and is in [[a-z0-9_-]] unless it is a non-ASCII character
    of the lower-cased response. *)
Theorem candidate_filename_rule (response original_path : string) :
  let base := filename_base (clean_response response) in
  candidate_filename response original_path
    = base +:+ lower (path_suffix original_path)
  ∧ base
    = rstrip_char "_" (truncate 100 (re_sub_runs (Ascii.eqb "_") "_"
        (replace_char " " "_"
           (strip (re_sub_runs isspace " "
              (re_keep (λ c, re_word c || isspace c || Ascii.eqb c "-")
                 (remove_char squote (remove_char dquote
                    (lower (strip response))))))))))
  ∧ candidate_filename response original_path
    = amended_sanitize response original_path
  ∧ (String.length base ≤ 100)%nat
  ∧ Forall (λ c, re_word c || Ascii.eqb c "-" = true) (chars base)
  ∧ Forall (λ c, plain_class c = true
                 ∨ (is_ascii c = false ∧ c ∈ map lower_char (chars response)))
      (chars base).
Proof.
  intros base. split; [reflexivity|]. split; [apply filename_base_steps|].
  split.
  { unfold candidate_filename, _generate_filename, _describe_image,
      amended_sanitize. by rewrite filename_base_words. }
  split; [apply filename_base_length|].
  pose proof (filename_base_class (clean_response response)) as Hcls.
  split; [exact Hcls|].
  set (Q := λ c : ascii,
         in_range 65 90 c = false
         ∧ (c ∈ map lower_char (chars response) ∨ c = " "%char ∨ c = "_"%char)).
  assert (Forall Q (chars base)) as HQ.
  { apply filename_base_Forall; [by split; auto|].
    apply clean_response_Forall; [by split; auto|].
    apply Forall_fmap.
    eapply Forall_impl;
      [apply (Forall_strip (λ c, c ∈ chars response)), Forall_forall; auto|].
    intros c Hc. simpl. split; [apply lower_no_capital|].
    left. by apply list_elem_of_fmap_2. }
  fold base in Hcls.
  assert (Forall (λ c, (re_word c || Ascii.eqb c "-" = true) ∧ Q c) (chars base))
    as Hall by (by apply Forall_and).
  eapply Forall_impl; [exact Hall|]. intros c [Hc [Hu Hin]].
  destruct (is_ascii c) eqn:Ea; [left | right].
  - clear Hin. revert Hc Hu Ea. by_char c.
  - split; [done|]. destruct Hin as [?|[->| ->]]; [done|done|done].
Qed.

End RuleFacts.

(** ** More on the mapping of [_group_similar_images] *)
Module GroupingExtras.
Import Grouper GrouperFacts NamingFacts MappingFacts Organizer OrganizerFacts.

Lemma dict_get_elem {V} (d : dict V) k v :
  NoDup (keys d) → (k, v) ∈ d ↔ dict_get k d = Some v.
Proof.
  induction d as [|[k' v'] d IH]; intros Hnd.
  { split; [by intros ?%elem_of_nil | done]. }
  unfold keys in Hnd. simpl in Hnd. apply NoDup_cons in Hnd as [Hk' Hnd].
  simpl. rewrite elem_of_cons. destruct (String.eqb_spec k' k) as [->|Hne].
  - split; [|intros [= ->]; by left].
    intros [[= ->]|Hin]; [done|]. exfalso. apply Hk'.
    apply list_elem_of_fmap. by exists (k, v).
  - rewrite <- (IH Hnd). split; [|by right]. intros [[= -> ->]|Hin]; done.
Qed.

Section Mapping.
Context {F : Type} {num : Numeric F}.
Variable embed : string → list F.
Variables (images : list image_info) (threshold : F) (min_group_size : Z).

Abbreviation found := (clusters embed images threshold).
Abbreviation named := (named_groups embed images threshold min_group_size).
Abbreviation pooled := (pooled_records embed images threshold min_group_size).
Abbreviation result :=
  (_group_similar_images embed images threshold min_group_size).

(** X3: unless a named group is itself called [misc_singles] while some
    cluster is pooled, the mapping returned is a partition of the input
    records with pairwise distinct names: first the clusters of at least
    [min_group_size] records, in the order they were found, then, if any
    cluster is smaller, the records of the smaller clusters under
    [misc_singles]. *)
Theorem mapping_partition :
  "misc_singles" ∉ keys named ∨ pooled = [] →
  concat (values result) ≡ₚ images
  ∧ NoDup (keys result)
  ∧ values named = List.filter (qualifies min_group_size) found
  ∧ pooled = concat (List.filter (λ g, negb (qualifies min_group_size g)) found)
  ∧ result = named ++ match pooled with
                      | [] => []
                      | _ => [("misc_singles", pooled)]
                      end.
Proof.
  intros Hfree.
  destruct (partition_without_collision embed images threshold min_group_size Hfree)
    as (Hp & Hnd & Heq).
  split; [done|]. split; [done|].
  split; [apply named_values|]. split; [apply pooled_eq | done].
Qed.

(** X4: with [min_group_size] at most 1 nothing is pooled: the groups of
    the mapping are exactly the clusters, in the order they were found,
    there is no [misc_singles] entry added, and every record is in exactly
    one group. *)
Theorem no_pool_for_small_minimum :
  (min_group_size ≤ 1)%Z →
  values result = found
  ∧ pooled = []
  ∧ concat (values result) ≡ₚ images
  ∧ NoDup (keys result).
Proof.
  intros Hmin.
  assert (Forall (λ g, qualifies min_group_size g = true) found) as Hq.
  { eapply Forall_impl; [apply clusters_nonempty|]. intros g Hg.
    unfold qualifies. apply Z.leb_le. destruct g; [done|]. simpl length. lia. }
  assert (pooled = []) as Hpool.
  { rewrite pooled_eq. rewrite ClusterFacts.lfilter_none; [done|].
    intros g Hg. apply list_elem_of_In in Hg.
    by rewrite (proj1 (Forall_forall _ _) Hq g Hg). }
  destruct (partition_without_collision embed images threshold min_group_size
              (or_intror Hpool)) as (Hp & Hnd & Heq).
  split; [|done]. rewrite Heq, Hpool, app_nil_r, named_values.
  by apply PyStrFacts.lfilter_id_gen.
Qed.

(** X5: [_organize_files] never fails on [images[0]] when it is given the
    mapping of [_group_similar_images]: no group of the mapping is empty,
    and the calls are the creation of the output folder followed by the
    calls of each group in turn. *)
Theorem organize_after_grouping (output_folder : string) (copy_files : bool) :
  Forall (λ g, g ≠ []) (values result)
  ∧ _organize_files result output_folder copy_files
    = (MkdirOutput output_folder
         :: concat (map (λ e, (organize_group copy_files e.1 e.2).1) result),
       true).
Proof.
  split; [apply groups_nonempty|].
  apply organize_files_calls, groups_nonempty.
Qed.
End Mapping.

(** X6: the loop that makes a group name unique stops within
    [len(organized_groups) + 1] tests, and returns a name that is not a key
    of the dictionary: the name itself when it is free, and otherwise the
    first free one among [name_1], [name_2], ... *)
Theorem unique_name_spec {V : Type} (d : dict V) (original_name : string) :
  let r := unique_name d original_name in
  (r ∉ keys d)
  ∧ ((original_name ∉ keys d) → r = original_name)
  ∧ ((original_name ∈ keys d) →
     ∃ j, (1 ≤ j ≤ S (length d))%nat ∧ r = suffixed original_name j
       ∧ ∀ j', (1 ≤ j' < j)%nat → suffixed original_name j' ∈ keys d).
Proof.
  intros r. pose proof (unique_name_fresh d original_name) as Hfresh.
  split; [done|].
  destruct (unique_name_first d original_name) as [[Hnot Hr]|(Hin & j & Hj & Hr & Hb)].
  - split; [done | by intros ?].
  - split; [by intros ?|]. intros _. exists j. split; [|done]. split; [done|].
    destruct (decide (j ≤ S (length d))%nat) as [|Hbig]; [done|]. exfalso.
    assert (map (suffixed original_name) (seq 1 (S (length d))) ⊆ keys d) as Hsub.
    { intros x Hx. apply list_elem_of_fmap in Hx as (i & -> & Hi).
      apply list_elem_of_In, in_seq in Hi. apply Hb. lia. }
    assert (NoDup (map (suffixed original_name) (seq 1 (S (length d))))) as Hnd.
    { apply NoDup_fmap_2; [|apply NoDup_seq]. intros i i'. apply suffixed_inj. }
    pose proof (submseteq_length _ _ (NoDup_submseteq _ _ Hnd Hsub)) as Hlen.
    unfold keys in Hlen. rewrite !length_map, length_seq in Hlen. lia.
Qed.

(** X7: the words that name a cluster are the first three entries of the
    counts of the words of its descriptions, each word counted once per
    occurrence, sorted by decreasing count, words with the same count
    staying in the order of their first occurrence. *)
Theorem common_words_spec (group : list image_info) :
  let words := all_words group in
  let counts := Counter words in
  let sorted := sort_desc counts in
  common_words group = (take 3 sorted).*1
  ∧ (∀ w n, (w, n) ∈ counts ↔ w ∈ words ∧ n = occurrences w words)
  ∧ (∀ ws w, keys (Counter (ws ++ [w]))
             = keys (Counter ws) ++ (if bool_decide (w ∈ ws) then [] else [w]))
  ∧ sorted ≡ₚ counts
  ∧ StronglySorted by_count sorted
  ∧ ∀ k, List.filter (λ e, Nat.eqb e.2 k) sorted
         = List.filter (λ e, Nat.eqb e.2 k) counts.
Proof.
  intros words counts sorted. split; [done|]. split.
  { intros w n. unfold counts.
    rewrite (dict_get_elem _ _ _ (Counter_keys_NoDup words)), Counter_get.
    destruct (bool_decide (w ∈ words)) eqn:E.
    - apply bool_decide_eq_true in E. split; [intros [= <-]; done|].
      by intros [_ ->].
    - apply bool_decide_eq_false in E. split; [done | by intros [? _]]. }
  split; [apply Counter_keys_snoc|].
  split; [apply sort_desc_perm|]. split; [apply sort_desc_sorted|].
  intros k. apply sort_desc_stable.
Qed.

Lemma mapping_partition_witness :
  concat (values (_group_similar_images axis_embed Calls.five_records (99 # 100)%Q 3))
  ≡ₚ Calls.five_records.
Proof.
  apply (mapping_partition axis_embed Calls.five_records (99 # 100)%Q 3).
  left. apply (bool_decide_unpack _). by vm_compute.
Defined.

Lemma no_pool_for_small_minimum_witness :
  (1 ≤ 1)%Z
  ∧ values (_group_similar_images axis_embed Calls.five_records (99 # 100)%Q 1)
    = clusters axis_embed Calls.five_records (99 # 100)%Q.
Proof.
  split; [lia|].
  apply (no_pool_for_small_minimum axis_embed Calls.five_records (99 # 100)%Q 1).
  lia.
Defined.

End GroupingExtras.

(** ** More on the calls of [_organize_files] *)
Module OrganizerExtras.
Import Grouper Organizer OrganizerFacts Calls Shape PyStrFacts ShapeFacts.

Lemma enumerate_from_snd_images (l : list image_info) start :
  map snd (enumerate_from start l) = l.
Proof. unfold enumerate_from. apply snd_zip. by rewrite length_seq. Qed.

Lemma placements_sources copy_files group_name (h : nat * image_info → string)
    (l : list (nat * image_info)) :
  omap source_of (map (λ p, place copy_files p.2 group_name (h p)) l)
  = map (λ p, original_path p.2) l.
Proof.
  induction l as [|p l IH]; [done|]. csimpl. rewrite IH.
  unfold place. by destruct copy_files.
Qed.

Lemma placements_folders copy_files group_name (h : nat * image_info → string)
    (l : list (nat * image_info)) :
  omap folder_of (map (λ p, place copy_files p.2 group_name (h p)) l) = [].
Proof.
  induction l as [|p l IH]; [done|]. csimpl. rewrite IH.
  unfold place. by destruct copy_files.
Qed.

Lemma placements_kind copy_files group_name (h : nat * image_info → string)
    (l : list (nat * image_info)) :
  Forall (λ op, is_copy op = copy_files ∧ is_move op = negb copy_files)
    (map (λ p, place copy_files p.2 group_name (h p)) l).
Proof.
  apply Forall_fmap, Forall_true. intros p. simpl. unfold place.
  by destruct copy_files.
Qed.

(** The calls of one group. *)
Lemma organize_group_calls copy_files group_name images :
  images ≠ [] →
  let ops := (organize_group copy_files group_name images).1 in
  omap source_of ops ≡ₚ map original_path images
  ∧ omap folder_of ops = [group_name]
  ∧ Forall (λ op, is_copy op = true → copy_files = true) ops
  ∧ Forall (λ op, is_move op = true → copy_files = false) ops.
Proof.
  intros Hne ops. unfold ops, organize_group.
  destruct (Nat.ltb 1 (length images)) eqn:E.
  - cbn [fst]. cbn [omap list_omap source_of folder_of].
    rewrite placements_sources, placements_folders.
    split; [|split; [done|]].
    + rewrite <- (map_map snd original_path), enumerate_from_snd_images.
      apply Permutation_map, sort_by_name_perm.
    + split; constructor; try done;
        (eapply Forall_impl; [apply placements_kind|]);
        intros op [Hc Hm]; destruct copy_files; simpl in *; congruence.
  - destruct images as [|img images]; [done|].
    destruct images as [|img' images]; [|simpl in E; done].
    cbn. unfold place. destruct copy_files; repeat split; repeat constructor; done.
Qed.

(** X8: on a mapping without empty group, [_organize_files] first creates
    the output folder, then one folder per group in the order of the
    mapping, and places every record of the mapping exactly once; every
    placement is a copy when [copy_files] is set and a move when it is not,
    so that no source file is removed by a copying run. *)
Theorem organize_files_cover (groups : dict (list image_info))
    (output_folder : string) (copy_files : bool) :
  Forall (λ g, g ≠ []) (values groups) →
  let ops := (_organize_files groups output_folder copy_files).1 in
  (∃ rest, ops = MkdirOutput output_folder :: rest
           ∧ Forall (λ op, op ≠ MkdirOutput output_folder) rest)
  ∧ omap folder_of ops = keys groups
  ∧ omap source_of ops ≡ₚ map original_path (concat (values groups))
  ∧ Forall (λ op, is_copy op = true → copy_files = true) ops
  ∧ Forall (λ op, is_move op = true → copy_files = false) ops.
Proof.
  intros Hne ops. unfold ops. rewrite organize_files_calls by done. cbn [fst].
  set (calls := concat _).
  assert (omap folder_of calls = keys groups
          ∧ omap source_of calls ≡ₚ map original_path (concat (values groups))
          ∧ Forall (λ op, is_copy op = true → copy_files = true) calls
          ∧ Forall (λ op, is_move op = true → copy_files = false) calls
          ∧ Forall (λ op, op ≠ MkdirOutput output_folder) calls)
    as (Hf & Hs & Hc & Hm & Ho).
  { unfold calls. clear calls ops.
    induction groups as [|[name images] groups IH]; [by repeat constructor|].
    unfold values, keys in *. simpl in *. apply Forall_cons in Hne as [Hi Hg].
    destruct (IH Hg) as (Hf & Hs & Hc & Hm & Ho).
    destruct (organize_group_calls copy_files name images Hi) as (Hs1 & Hf1 & Hc1 & Hm1).
    rewrite !omap_app, Hf1, Hf, Hs1, Hs, map_app.
    split; [done|]. split; [done|].
    split; [by apply Forall_app|]. split; [by apply Forall_app|].
    apply Forall_app. split; [|done].
    unfold organize_group. destruct (Nat.ltb 1 (length images)).
    - constructor; [done|]. apply Forall_fmap, Forall_true. intros p. simpl.
      unfold place. by destruct copy_files.
    - destruct images; [done|]. unfold place.
      destruct copy_files; by repeat constructor. }
  split; [by eexists|]. split; [done|]. split; [done|].
  split; by constructor.
Qed.

Lemma organize_files_cover_witness :
  omap source_of
    (_organize_files
       (_group_similar_images axis_embed five_records (99 # 100)%Q 3) "/out" true).1
  ≡ₚ map original_path
       (concat (values (_group_similar_images axis_embed five_records (99 # 100)%Q 3))).
Proof.
  apply (organize_files_cover
           (_group_similar_images axis_embed five_records (99 # 100)%Q 3) "/out" true).
  apply MappingFacts.groups_nonempty.
Defined.

Lemma string_of_uint_digits d :
  Forall (λ c, is_digit c = true) (chars (NilEmpty.string_of_uint d)).
Proof. induction d; simpl; by constructor. Qed.

Lemma pad2_digits i : Forall (λ c, is_digit c = true) (chars (pad2 i)).
Proof.
  assert (Forall (λ c, is_digit c = true) (chars (of_nat i))) as Hd.
  { unfold of_nat, NilZero.string_of_uint.
    destruct (Nat.to_uint i) eqn:E; try (rewrite <- E; apply string_of_uint_digits).
    by repeat constructor. }
  unfold pad2. destruct (Nat.ltb _ _); [|done]. by constructor.
Qed.

Lemma path_suffix_head p : head_free is_digit (chars (path_suffix p)) = true.
Proof.
  unfold path_suffix. destruct (after_last_dot None _) as [tail|]; [|done].
  destruct (_ && _); [|done]. by rewrite chars_str.
Qed.

Lemma digits_split a1 : ∀ a2 e1 e2,
  Forall (λ c, is_digit c = true) a1 → Forall (λ c, is_digit c = true) a2 →
  head_free is_digit e1 = true → head_free is_digit e2 = true →
  a1 ++ e1 = a2 ++ e2 → a1 = a2.
Proof.
  induction a1 as [|c a1 IH]; intros a2 e1 e2 H1 H2 He1 He2 Heq.
  - destruct a2 as [|d a2]; [done|]. simpl in Heq. subst e1.
    apply Forall_cons in H2 as [Hd _]. simpl in He1. by rewrite Hd in He1.
  - apply Forall_cons in H1 as [Hc H1].
    destruct a2 as [|d a2]; simpl in Heq.
    + subst e2. simpl in He2. by rewrite Hc in He2.
    + apply Forall_cons in H2 as [_ H2]. injection Heq as -> Heq.
      f_equal. by apply (IH a2 e1 e2).
Qed.

(** The names [base_<k><ext>] differ when the numbers differ. *)
Lemma sequential_name_inj base_name i j img img' :
  sequential_name base_name i img = sequential_name base_name j img' → i = j.
Proof.
  unfold sequential_name. intros Heq. do 2 apply String.app_inj in Heq.
  apply (f_equal chars) in Heq. rewrite !chars_app in Heq.
  apply digits_split in Heq;
    [| apply pad2_digits | apply pad2_digits
     | apply path_suffix_head | apply path_suffix_head].
  apply (f_equal str) in Heq. rewrite !str_chars in Heq.
  pose proof (pad2_reads i) as Hi. rewrite Heq, pad2_reads in Hi. congruence.
Qed.

Lemma enumerate_from_fst_NoDup {A} (l : list A) start :
  NoDup (map fst (enumerate_from start l)).
Proof.
  unfold enumerate_from. rewrite fst_zip by (by rewrite length_seq).
  apply NoDup_seq.
Qed.

Lemma same_index_same_entry {A} (l : list (nat * A)) x y :
  NoDup (map fst l) → x ∈ l → y ∈ l → x.1 = y.1 → x = y.
Proof.
  induction l as [|z l IH]; intros Hnd Hx Hy Hxy; [by apply elem_of_nil in Hx|].
  simpl in Hnd. apply NoDup_cons in Hnd as [Hz Hnd].
  apply elem_of_cons in Hx as [->|Hx]; apply elem_of_cons in Hy as [->|Hy];
    [done | | | by apply IH].
  - exfalso. apply Hz. rewrite Hxy. by apply list_elem_of_fmap_2.
  - exfalso. apply Hz. rewrite <- Hxy. by apply list_elem_of_fmap_2.
Qed.

(** X9: in a group of more than one member no two members are given the
    same file name, so that no placement of the group overwrites
    another. *)
Theorem group_filenames_distinct (copy_files : bool) (group_name : string)
    (images : list image_info) :
  (1 < length images)%nat →
  NoDup (omap filename_of (organize_group copy_files group_name images).1)
  ∧ length (omap filename_of (organize_group copy_files group_name images).1)
    = length images.
Proof.
  intros Hlen. unfold organize_group. apply Nat.ltb_lt in Hlen. rewrite Hlen.
  cbn [fst]. csimpl.
  set (sorted := sort_by_name images). set (base_name := shared_base_name sorted).
  assert (omap filename_of
            (map (λ p, place copy_files p.2 group_name
                         (sequential_name base_name p.1 p.2))
               (enumerate_from 1 sorted))
          = map (λ p, sequential_name base_name p.1 p.2) (enumerate_from 1 sorted))
    as ->.
  { generalize (enumerate_from 1 sorted). intros l.
    induction l as [|p l IH]; [done|]. csimpl. rewrite IH.
    unfold place. by destruct copy_files. }
  split.
  - apply NoDup_fmap_2_strong.
    + intros x y Hx Hy Heq.
      apply (same_index_same_entry (enumerate_from 1 sorted));
        [apply enumerate_from_fst_NoDup | done | done |].
      by eapply sequential_name_inj.
    + eapply NoDup_fmap_1, enumerate_from_fst_NoDup.
  - rewrite length_map. unfold enumerate_from.
    rewrite length_zip_with_l_eq by (by rewrite length_seq).
    rewrite length_seq. apply Permutation_length, sort_by_name_perm.
Qed.

Lemma group_filenames_distinct_witness :
  omap filename_of
    (organize_group false "red_car"
       [record "b.jpg" "red car"; record "a.PNG" "red car"; record "c.jpg" "red car"]).1
  = ["red_car_01.PNG"; "red_car_02.jpg"; "red_car_03.jpg"]
  ∧ NoDup (omap filename_of
             (organize_group false "red_car"
                [record "b.jpg" "red car"; record "a.PNG" "red car";
                 record "c.jpg" "red car"]).1).
Proof.
  split; [reflexivity|].
  apply (group_filenames_distinct false "red_car"
           [record "b.jpg" "red car"; record "a.PNG" "red car";
            record "c.jpg" "red car"]).
  simpl. lia.
Defined.

End OrganizerExtras.

(** ** More on the job *)
Module JobExtras.
Import Grouper Organizer Job Calls OrganizerFacts JobFacts.

Lemma omap_enumerate {A B} (f : A → option B) (l : list A) start :
  omap (λ e, f e.2) (enumerate_from start l) = omap f l.
Proof.
  revert start. induction l as [|x l IH]; intros start; [done|].
  rewrite enumerate_from_cons. csimpl. by rewrite IH.
Qed.

Lemma fs_calls_app evs evs' : fs_calls (evs ++ evs') = fs_calls evs ++ fs_calls evs'.
Proof. unfold fs_calls. apply omap_app. Qed.

Lemma fs_calls_file_events `{ProgressArith} {F} (w : world F) n j
    (l : list (nat * string)) :
  fs_calls (flat_map (file_events w n j) l) = [].
Proof. induction l as [|e l IH]; [done|]. simpl. exact IH. Qed.

Lemma file_events_quiet `{ProgressArith} {F} (w : world F) n j
    (l : list (nat * string)) :
  Forall (λ e, match e with Grouped _ | FsCall _ => False | _ => True end)
    (flat_map (file_events w n j) l).
Proof.
  apply Forall_forall. intros e Hin.
  apply list_elem_of_In, in_flat_map in Hin as (x & _ & Hx).
  destruct Hx as [<-|[<-|[]]]; done.
Qed.

Lemma run_ops_stops {F} (w : world F) pre op post msg :
  (∀ o, o ∈ pre → fs_error w o = None) → fs_error w op = Some msg →
  run_ops w (pre ++ op :: post) = (map FsCall pre, Some msg).
Proof.
  intros Hpre Hop. induction pre as [|o pre IH]; simpl.
  { by rewrite Hop. }
  rewrite (Hpre o) by left. rewrite IH; [done|].
  intros o' Ho'. apply Hpre. by right.
Qed.

Lemma fs_calls_map ops : fs_calls (map FsCall ops) = ops.
Proof. induction ops as [|o ops IH]; [done|]. csimpl. by rewrite IH. Qed.

Lemma last_index {A} (G : nat * A → job) (l : list A) : ∀ start d,
  (∀ e, processed_images (G e) = e.1) →
  l ≠ [] →
  processed_images (List.last (map G (enumerate_from start l)) d)
  = (start + length l - 1)%nat.
Proof.
  induction l as [|x l IH]; intros start d HG Hne; [done|].
  rewrite enumerate_from_cons. cbn [map]. rewrite last_cons_default.
  destruct l as [|y l]; [simpl; rewrite HG; simpl; lia|].
  rewrite IH; [simpl; lia | done | done].
Qed.

Section Runs.
Context {arith : ProgressArith} {F : Type} {num : Numeric F}.
Variables (w : world F) (s : settings F).
Variables (output_folder : string) (order : list string) (job0 : job).

Abbreviation files := (find_images order (listing w)).
Abbreviation records := (records_of w files).
Abbreviation groups :=
  (_group_similar_images (embed w) records (similarity_threshold s)
     (min_group_size s)).
Abbreviation trace := (_process_job w s output_folder order job0).

Lemma loop_keeps (P : job → Prop) (l : list (nat * string)) n j :
  (∀ name i q, P (with_file name i q j)) → P j →
  P (List.last
       (map (λ e, with_file (path_name e.2) e.1 (file_progress e.1 n) j) l) j).
Proof.
  intros Hw Hj. apply last_Forall; [done|].
  apply Forall_fmap, Forall_true. intros e. apply Hw.
Qed.

(** X10: when the embedder raises on the descriptions of the records, the
    job ends in the state [error] with the message of the exception, at
    progress 50 and without results; nothing was grouped and no file system
    call was made, so the output folder does not exist because of this
    job. *)
Theorem embedding_failure (msg : string) :
  files ≠ [] →
  encode_error w (map description records) = Some msg →
  fs_calls trace = []
  ∧ Forall (λ e, match e with Grouped _ | FsCall _ => False | _ => True end) trace
  ∧ ∃ j, List.last trace (Update job0) = Update j
      ∧ job_status j = st_error
      ∧ job_error j = Some msg
      ∧ progress j = 50%Q
      ∧ job_results j = job_results job0.
Proof.
  intros Hne Henc.
  pose proof (process_job_events w s output_folder order job0 Hne) as He.
  cbv zeta in He. unfold enumerate in He. rewrite omap_enumerate in He.
  unfold records_of in *. rewrite Henc in He. rewrite He. clear He.
  split; [|split].
  - rewrite !fs_calls_app, fs_calls_file_events. done.
  - apply Forall_app. split; [by repeat constructor|].
    apply Forall_app. split; [apply file_events_quiet | by repeat constructor].
  - eexists. split.
    { rewrite !app_assoc.
      change (?a ++ [?x; ?y]) with (a ++ [x] ++ [y]). rewrite !app_assoc.
      apply List.last_last. }
    split; [done|]. split; [done|]. split; [done|].
    cbn. by apply (loop_keeps (λ j, job_results j = job_results job0)).
Qed.

(** X11: when a file system call raises, the calls issued before it have
    been carried out and stay so, no later call is issued, and the job ends
    in the state [error] with the message of the exception, at progress 75
    and without results. *)
Theorem organizing_failure (pre post : list fs_op) (op : fs_op) (msg : string) :
  files ≠ [] →
  encode_error w (map description records) = None →
  (_organize_files groups output_folder (copy_files s)).1 = pre ++ op :: post →
  (∀ o, o ∈ pre → fs_error w o = None) →
  fs_error w op = Some msg →
  fs_calls trace = pre
  ∧ ∃ j, List.last trace (Update job0) = Update j
      ∧ job_status j = st_error
      ∧ job_error j = Some msg
      ∧ progress j = 75%Q
      ∧ job_results j = job_results job0.
Proof.
  intros Hne Henc Hops Hpre Hop.
  pose proof (process_job_events w s output_folder order job0 Hne) as He.
  cbv zeta in He. unfold enumerate in He. rewrite omap_enumerate in He.
  unfold records_of in *. rewrite ?Henc in He. fold groups in He.
  rewrite organize_files_calls in Hops by apply MappingFacts.groups_nonempty.
  cbn [fst] in Hops. rewrite Hops, (run_ops_stops w pre op post msg Hpre Hop) in He.
  cbn [fst snd] in He. rewrite He. clear He.
  split.
  - rewrite !fs_calls_app, fs_calls_file_events.
    change (fs_calls (Update ?a :: Grouped ?g :: Update ?b :: ?c ++ ?d))
      with (fs_calls (c ++ d)).
    by rewrite fs_calls_app, fs_calls_map, app_nil_r.
  - eexists. split.
    { change (?a ++ ?b ++ ?x :: ?g :: ?y :: ?c ++ [?z])
        with (a ++ b ++ [x; g; y] ++ c ++ [z]).
      rewrite !app_assoc. apply List.last_last. }
    split; [done|]. split; [done|]. split; [done|].
    cbn. by apply (loop_keeps (λ j, job_results j = job_results job0)).
Qed.

End Runs.

Lemma process_image_cases {F : Type} (w : world F) (p : string) :
  (opens w p = true
   ∧ ∃ dims size,
       process_image w p
       = Some (ImageInfo p (path_name p)
                 (Sanitizer._describe_image (generate w p))
                 (Sanitizer._generate_filename
                    (Sanitizer._describe_image (generate w p)) p)
                 dims size))
  ∨ (opens w p = false ∧ process_image w p = None).
Proof.
  unfold opens, process_image.
  destruct (image_size w p) as [dims|]; [|by right].
  destruct (stat_size w p) as [size|]; [|by right].
  left. split; [done|]. by exists dims, size.
Qed.

Lemma records_of_spec {F : Type} (w : world F) (files : list string) :
  map original_path (records_of w files) = List.filter (opens w) files
  ∧ Forall (λ r,
      description r = Sanitizer._describe_image (generate w (original_path r))
      ∧ new_filename r
        = Sanitizer._generate_filename (description r) (original_path r))
      (records_of w files).
Proof.
  unfold records_of.
  induction files as [|p files [IH1 IH2]]; [by split|].
  csimpl. cbn [List.filter].
  destruct (process_image_cases w p) as [(Ho & dims & size & Hp)|[Ho Hp]];
    rewrite Ho, Hp; [|by split].
  csimpl. split; [by rewrite IH1|].
  constructor; [|exact IH2]. by cbn.
Qed.

Lemma processed_events_app evs evs' :
  processed_events (evs ++ evs') = processed_events evs ++ processed_events evs'.
Proof. unfold processed_events. apply omap_app. Qed.

Lemma processed_events_calls evs :
  Forall (λ e, is_fs_call e = true) evs → processed_events evs = [].
Proof.
  induction 1 as [|e evs He Hevs IH]; [done|].
  destruct e; done.
Qed.

Lemma processed_events_loop `{ProgressArith} {F} (w : world F) n j
    (l : list (nat * string)) :
  processed_events (flat_map (file_events w n j) l)
  = map (λ e, (e.1, e.2, opens w e.2)) l.
Proof.
  induction l as [|e l IH]; [done|].
  cbn [flat_map file_events app map]. csimpl. rewrite IH. do 2 f_equal.
  destruct (process_image_cases w e.2) as [(-> & dims & size & ->)|[-> ->]]; done.
Qed.


Lemma prefix_str (l1 l2 : list ascii) :
  String.prefix (str l1) (str l2) = true ↔ ∃ k, l2 = l1 ++ k.
Proof.
  revert l2. induction l1 as [|a l1 IH]; intros l2.
  { split; [by exists l2 | intros _; by destruct l2]. }
  destruct l2 as [|b l2]; simpl.
  { split; [done | by intros [k Hk]]. }
  destruct (ascii_dec a b) as [->|Hab].
  - rewrite IH. split; intros [k Hk]; exists k; [by rewrite Hk | by injection Hk].
  - split; [done | intros [k Hk]; by injection Hk].
Qed.

Lemma prefix_both {A} (l a b k1 k2 : list A) :
  l = a ++ k1 → l = b ++ k2 → (length a ≤ length b)%nat → ∃ k, b = a ++ k.
Proof.
  intros -> H Hle. exists (take (length b - length a) k1).
  apply (f_equal (take (length b))) in H.
  rewrite take_app_length, take_app_ge in H by lia. done.
Qed.

Lemma endswith_both (s a b : string) :
  endswith s a = true → endswith s b = true →
  endswith b a = true ∨ endswith a b = true.
Proof.
  unfold endswith. rewrite !prefix_str. intros [k1 H1] [k2 H2].
  destruct (decide (length (rev (chars a)) ≤ length (rev (chars b)))%nat) as [Hle|Hgt].
  - left. by apply (prefix_both (rev (chars s)) _ _ k1 k2).
  - right. apply (prefix_both (rev (chars s)) _ _ k2 k1); [done | done | lia].
Qed.

Lemma suffix_free_spec (ps : list string) (s a b : string) :
  suffix_free ps = true → a ∈ ps → b ∈ ps →
  endswith s a = true → endswith s b = true → a = b.
Proof.
  unfold suffix_free. rewrite forallb_forall. intros Hfree Ha Hb Hsa Hsb.
  pose proof (Hfree a (proj1 (list_elem_of_In _ _) Ha)) as Hra.
  pose proof (Hfree b (proj1 (list_elem_of_In _ _) Hb)) as Hrb.
  rewrite forallb_forall in Hra, Hrb.
  specialize (Hra b (proj1 (list_elem_of_In _ _) Hb)).
  specialize (Hrb a (proj1 (list_elem_of_In _ _) Ha)).
  destruct (endswith_both s a b Hsa Hsb) as [H|H]; rewrite H in *; simpl in *.
  - by apply String.eqb_eq in Hra.
  - by apply String.eqb_eq in Hrb.
Qed.

Lemma find_images_patterns order entries :
  find_images order entries = flat_map (glob_rec entries) (patterns order).
Proof.
  unfold find_images, patterns. induction order as [|ext order IH]; [done|].
  simpl. rewrite <- app_assoc. by rewrite IH.
Qed.

Lemma glob_rec_NoDup entries ext : NoDup entries → NoDup (glob_rec entries ext).
Proof.
  intros Hnd. unfold glob_rec. induction Hnd as [|p entries Hp Hnd IH]; simpl.
  { constructor. }
  destruct (endswith (path_name p) ext); [|done].
  constructor; [|done]. rewrite list_elem_of_In, List.filter_In.
  intros [Hin _]. by apply Hp, list_elem_of_In.
Qed.

Lemma glob_rec_elem entries ext p :
  p ∈ glob_rec entries ext ↔ p ∈ entries ∧ endswith (path_name p) ext = true.
Proof. unfold glob_rec. by rewrite !list_elem_of_In, List.filter_In. Qed.

Lemma flat_map_NoDup {A B} (f : A → list B) (l : list A) :
  NoDup l → (∀ x, x ∈ l → NoDup (f x)) →
  (∀ x y b, x ∈ l → y ∈ l → b ∈ f x → b ∈ f y → x = y) →
  NoDup (flat_map f l).
Proof.
  intros Hnd. induction Hnd as [|x l Hx Hnd IH]; intros Hf Hdis; simpl.
  { constructor. }
  apply NoDup_app. split; [apply Hf; left|]. split.
  - intros b Hb Hb'. apply list_elem_of_In, in_flat_map in Hb' as (y & Hy & Hby).
    apply list_elem_of_In in Hy, Hby.
    assert (x = y) as -> by (apply (Hdis x y b); [left | by right | done | done]).
    done.
  - apply IH.
    + intros y Hy. apply Hf. by right.
    + intros y z b Hy Hz. apply Hdis; by right.
Qed.

(** X14: on a case-sensitive file system the discovery finds every entry at
    most once, whatever the order in which the set of extensions is
    iterated: no name ends with two of the twelve suffixes.  So no image is
    processed twice, at most as many images are found as there are entries,
    and the iteration order changes only the order of the images. *)
Theorem find_images_once (order entries : list string) :
  order ≡ₚ image_extensions →
  NoDup entries →
  NoDup (find_images order entries)
  ∧ (length (find_images order entries) ≤ length entries)%nat
  ∧ find_images order entries ≡ₚ find_images image_extensions entries.
Proof.
  intros Hperm Hnd.
  assert (patterns order ≡ₚ patterns image_extensions) as Hpat.
  { unfold patterns. by apply Permutation_flat_map. }
  assert (NoDup (find_images order entries)) as Hres.
  { rewrite find_images_patterns. apply flat_map_NoDup.
    - rewrite Hpat. by vm_compute; repeat (constructor; [set_solver|]); constructor.
    - intros ext _. by apply glob_rec_NoDup.
    - intros a b p Ha Hb Hpa Hpb.
      apply glob_rec_elem in Hpa as [_ Hpa]. apply glob_rec_elem in Hpb as [_ Hpb].
      rewrite Hpat in Ha, Hb.
      by apply (suffix_free_spec (patterns image_extensions) (path_name p)). }
  split; [exact Hres|]. split.
  - apply submseteq_length, NoDup_submseteq; [exact Hres|].
    intros p Hp. by apply find_images_spec in Hp as [Hp _].
  - unfold find_images. by apply Permutation_flat_map.
Qed.

Lemma find_images_once_witness :
  NoDup (find_images [".png"; ".jpg"; ".webp"; ".jpeg"; ".tiff"; ".bmp"]
           ["/in/a.jpg"; "/in/sub/b.PNG"; "/in/c.jpeg"; "/in/notes.txt"]).
Proof.
  apply find_images_once.
  - apply NoDup_Permutation.
    + by vm_compute; repeat (constructor; [set_solver|]); constructor.
    + by vm_compute; repeat (constructor; [set_solver|]); constructor.
    + intros x. set_solver.
  - by vm_compute; repeat (constructor; [set_solver|]); constructor.
Defined.

Lemma embedding_failure_witness :
  fs_calls (_process_job (deaf_world ["/in/a.jpg"; "/in/b.jpg"]) default_settings
              "/out" image_extensions new_job) = [].
Proof.
  apply (embedding_failure (deaf_world ["/in/a.jpg"; "/in/b.jpg"]) default_settings
           "/out" image_extensions new_job "embedder down").
  - by vm_compute.
  - reflexivity.
Defined.

Lemma organizing_failure_witness :
  fs_calls (_process_job (readonly_world ["/in/a.jpg"; "/in/b.jpg"]) default_settings
              "/out" image_extensions new_job) = [MkdirOutput "/out"].
Proof.
  apply (organizing_failure (readonly_world ["/in/a.jpg"; "/in/b.jpg"])
           default_settings "/out" image_extensions new_job
           [MkdirOutput "/out"]
           [Copy2 "/in/a.jpg" "misc_singles" "red_car_01.jpg";
            Copy2 "/in/b.jpg" "misc_singles" "red_car_02.jpg"]
           (MkdirGroup "misc_singles") "Permission denied").
  - by vm_compute.
  - reflexivity.
  - by vm_compute.
  - intros o Ho. apply list_elem_of_singleton in Ho as ->. reflexivity.
  - reflexivity.
Defined.


End JobExtras.

(** ** The registry of jobs and the routes *)
Module WebFacts.
Import Grouper Job Web Calls NamingFacts.

Section Dict.
Context {V : Type}.
Implicit Types (d : dict V) (k : string) (v : V).

Lemma dict_get_set k v d k' :
  dict_get k' (dict_set k v d)
  = if String.eqb k k' then Some v else dict_get k' d.
Proof.
  induction d as [|[k0 v0] d IH]; simpl.
  { by destruct (String.eqb_spec k k'). }
  destruct (String.eqb_spec k0 k) as [->|Hne]; simpl.
  - by destruct (String.eqb_spec k k').
  - rewrite IH. destruct (String.eqb_spec k0 k') as [->|Hne']; [|done].
    destruct (String.eqb_spec k k'); congruence.
Qed.

Lemma dict_get_None k d : dict_get k d = None ↔ k ∉ keys d.
Proof.
  induction d as [|[k0 v0] d IH]; simpl.
  { split; [intros _; apply not_elem_of_nil | done]. }
  unfold keys in *. simpl. rewrite not_elem_of_cons.
  destruct (String.eqb_spec k0 k) as [->|Hne].
  - split; [done | by intros [? _]].
  - rewrite IH. split; [by intros ? | by intros [_ ?]].
Qed.

Lemma dict_set_keys k v d :
  keys (dict_set k v d) = keys d ++ (if dict_mem k d then [] else [k]).
Proof.
  destruct (dict_mem k d) eqn:E.
  - apply dict_mem_spec in E. by rewrite dict_set_keys_present, app_nil_r.
  - apply dict_mem_false in E. rewrite dict_set_fresh by done.
    unfold keys. by rewrite fmap_app.
Qed.

Lemma dict_set_keys_NoDup k v d : NoDup (keys d) → NoDup (keys (dict_set k v d)).
Proof.
  intros Hnd. rewrite dict_set_keys. destruct (dict_mem k d) eqn:E.
  - by rewrite app_nil_r.
  - apply dict_mem_false in E. apply NoDup_app. split; [done|].
    split; [|apply NoDup_singleton].
    intros x Hx ->%list_elem_of_singleton. done.
Qed.

Lemma dict_update_get (other : dict V) : ∀ d k,
  NoDup (keys other) →
  dict_get k (dict_update d other)
  = match dict_get k other with
    | Some v => Some v
    | None => dict_get k d
    end.
Proof.
  induction other as [|[k0 v0] other IH]; intros d k Hnd; [done|].
  unfold keys in Hnd. simpl in Hnd. apply NoDup_cons in Hnd as [Hk0 Hnd].
  unfold dict_update in *. simpl. rewrite IH by done.
  rewrite dict_get_set. destruct (String.eqb_spec k0 k) as [->|Hne]; [|done].
  apply dict_get_None in Hk0. by rewrite Hk0.
Qed.

Lemma dict_update_keys (other : dict V) : ∀ d,
  NoDup (keys d) →
  NoDup (keys (dict_update d other))
  ∧ ∃ added, keys (dict_update d other) = keys d ++ added.
Proof.
  induction other as [|[k0 v0] other IH]; intros d Hnd.
  { split; [done|]. exists []. by rewrite app_nil_r. }
  unfold dict_update in *. simpl.
  destruct (IH (dict_set k0 v0 d)) as [Hnd' [added Hadd]].
  { by apply dict_set_keys_NoDup. }
  split; [done|]. rewrite Hadd, dict_set_keys, <- app_assoc. by eexists.
Qed.
End Dict.

Lemma write_state_keys job_id j jobs :
  keys (write_state job_id j jobs) = keys jobs.
Proof.
  induction jobs as [|[k d] jobs IH]; [done|]. simpl.
  destruct (String.eqb k job_id); [done|].
  unfold keys in *. csimpl. by f_equal.
Qed.

Lemma write_state_get job_id j jobs k :
  dict_get k (write_state job_id j jobs)
  = if String.eqb job_id k then with_state j <$> dict_get k jobs
    else dict_get k jobs.
Proof.
  induction jobs as [|[k0 d] jobs IH]; simpl.
  { by destruct (String.eqb job_id k). }
  destruct (String.eqb_spec k0 job_id) as [->|Hne]; simpl.
  - by destruct (String.eqb_spec job_id k).
  - rewrite IH. destruct (String.eqb_spec k0 k) as [->|Hne']; [|done].
    destruct (String.eqb_spec job_id k); congruence.
Qed.

Lemma run_worker_keys job_id evs jobs :
  keys (run_worker job_id evs jobs) = keys jobs.
Proof.
  unfold run_worker. revert jobs.
  induction (updates evs) as [|j js IH]; intros jobs; [done|].
  simpl. etrans; [apply IH | apply write_state_keys].
Qed.

Lemma run_worker_other job_id evs jobs k :
  k ≠ job_id → dict_get k (run_worker job_id evs jobs) = dict_get k jobs.
Proof.
  intros Hne. unfold run_worker. revert jobs.
  induction (updates evs) as [|j js IH]; intros jobs; [done|].
  simpl. rewrite IH, write_state_get.
  destruct (String.eqb_spec job_id k); congruence.
Qed.

Lemma run_worker_own job_id evs : ∀ jobs d,
  dict_get job_id jobs = Some d →
  dict_get job_id (run_worker job_id evs jobs)
  = Some (with_state (List.last (updates evs) (jd_state d)) d).
Proof.
  unfold run_worker.
  induction (updates evs) as [|j js IH]; intros jobs d Hd.
  { simpl. rewrite Hd. by destruct d. }
  simpl foldl. rewrite (IH _ (with_state j d)).
  - by rewrite JobFacts.last_cons_default.
  - by rewrite write_state_get, String.eqb_refl, Hd.
Qed.

Lemma ends_terminal_app pre evs : ends_terminal evs → ends_terminal (pre ++ evs).
Proof.
  intros (p & j & -> & Hj). exists (pre ++ p), j.
  split; [apply app_assoc | exact Hj].
Qed.

Lemma ends_terminal_cons e evs : ends_terminal evs → ends_terminal (e :: evs).
Proof. apply (ends_terminal_app [e]). Qed.

Lemma ends_terminal_one j :
  is_terminal (Job.job_status j) = true → ends_terminal [Update j].
Proof. intros Hj. by exists [], j. Qed.

(** Every run ends with a write of a terminal state. *)
Lemma process_job_ends {arith : ProgressArith} {F : Type} {num : Numeric F}
    (w : world F) (s : settings F) (output_folder : string) (order : list string)
    (job0 : job) :
  ends_terminal (_process_job w s output_folder order job0).
Proof.
  destruct (decide (find_images order (listing w) = [])) as [He|Hne].
  { unfold _process_job. rewrite He.
    do 2 apply ends_terminal_cons. by apply ends_terminal_one. }
  rewrite (JobFacts.process_job_events w s output_folder order job0 Hne).
  cbv zeta. do 2 apply ends_terminal_app. apply ends_terminal_cons.
  destruct (encode_error w _) as [msg|].
  { by apply ends_terminal_one. }
  do 2 apply ends_terminal_cons. apply ends_terminal_app.
  apply ends_terminal_one. by destruct (run_ops w _).2.
Qed.

(** X15: the settings of a job are the four defaults overridden by the
    settings of the request: a key of the request reads as the request gave
    it, any other key as its default, so the four default keys are always
    present; the defaults keep their places at the front and the keys the
    request adds follow. *)
Theorem settings_merge (settings : dict value) :
  NoDup (keys settings) →
  (∀ k, dict_get k (dict_update default_settings settings)
        = match dict_get k settings with
          | Some v => Some v
          | None => dict_get k default_settings
          end)
  ∧ (∀ k, k ∈ keys default_settings →
          is_Some (dict_get k (dict_update default_settings settings)))
  ∧ NoDup (keys (dict_update default_settings settings))
  ∧ ∃ added, keys (dict_update default_settings settings)
             = ["model"; "similarity_threshold"; "min_group_size"; "copy_files"]
               ++ added.
Proof.
  intros Hnd.
  assert (NoDup (keys default_settings)) as Hdef.
  { by vm_compute; repeat (constructor; [set_solver|]); constructor. }
  split; [intros k; by apply dict_update_get|]. split.
  - intros k Hk. rewrite dict_update_get by done.
    destruct (dict_get k settings); [done|].
    destruct (dict_get k default_settings) eqn:E; [done|].
    by apply dict_get_None in E.
  - exact (dict_update_keys settings default_settings Hdef).
Qed.

Lemma settings_merge_witness :
  dict_update default_settings [("copy_files", VBool false); ("seed", VNum 7%Q)]
  = [("model", VStr "qwen2.5vl"); ("similarity_threshold", VNum (85 # 100)%Q);
     ("min_group_size", VNum 3%Q); ("copy_files", VBool false);
     ("seed", VNum 7%Q)]
  ∧ NoDup (keys (dict_update default_settings
                   [("copy_files", VBool false); ("seed", VNum 7%Q)])).
Proof.
  split; [reflexivity|].
  apply (settings_merge [("copy_files", VBool false); ("seed", VNum 7%Q)]).
  by vm_compute; repeat (constructor; [set_solver|]); constructor.
Defined.


(** X17: a job created under a fresh identifier becomes the last entry of
    the table, so [list_jobs] returns the jobs in the order of their
    creation; under an identifier already in use the entry is replaced where
    it stands and the list keeps its length. *)
Theorem create_job_listing (jobs : dict job_data) (job_id : string) (now : Q)
    (input_folder output_folder : string) (settings : dict value) :
  let created :=
    JobData job_id input_folder output_folder settings now new_job in
  let jobs' := (create_job jobs job_id now input_folder output_folder settings).2 in
  (job_id ∉ keys jobs → list_jobs jobs' = list_jobs jobs ++ [created])
  ∧ (job_id ∈ keys jobs →
     keys jobs' = keys jobs ∧ length (list_jobs jobs') = length (list_jobs jobs))
  ∧ created ∈ list_jobs jobs'.
Proof.
  intros created jobs'. subst jobs'. cbn [create_job snd]. fold created.
  unfold list_jobs, values. split; [|split].
  - intros Hk. rewrite dict_set_fresh by done. by rewrite fmap_app.
  - intros Hk. pose proof (dict_set_keys_present job_id created jobs Hk) as Hkeys.
    split; [done|]. apply (f_equal length) in Hkeys. unfold keys in Hkeys.
    by rewrite !length_fmap in *.
  - induction jobs as [|[k d] jobs IH]; simpl; [by left|].
    destruct (String.eqb k job_id); simpl; [by left | by right].
Qed.

(** X18: the updates of a worker change the entry of its own job and
    nothing else: the identifiers of the table and their order stay, every
    other job reads as before, and the job itself shows the last state
    written (its state at the start when nothing was written yet) with the
    folders, settings and start time it was created with. *)
Theorem worker_updates_own_entry (job_id : string) (evs : list event)
    (jobs : dict job_data) (d : job_data) :
  dict_get job_id jobs = Some d →
  keys (run_worker job_id evs jobs) = keys jobs
  ∧ (∀ other, other ≠ job_id →
       Web.job_status (run_worker job_id evs jobs) other
       = Web.job_status jobs other)
  ∧ Web.job_status (run_worker job_id evs jobs) job_id
    = Json (JobData (jd_id d) (jd_input_folder d) (jd_output_folder d)
              (jd_settings d) (jd_start_time d)
              (List.last (updates evs) (jd_state d))).
Proof.
  intros Hd. split; [apply run_worker_keys|]. split.
  - intros other Hne. unfold Web.job_status. by rewrite run_worker_other.
  - unfold Web.job_status. by rewrite (run_worker_own job_id evs jobs d Hd).
Qed.

Lemma worker_updates_own_entry_witness :
  let d := JobData "j1" "/in" "/out" default_settings 0%Q new_job in
  let jobs := [("j0", d); ("j1", d)] in
  keys (run_worker "j1" [Update (with_status st_running new_job)] jobs)
  = ["j0"; "j1"].
Proof.
  intros d jobs.
  apply (worker_updates_own_entry "j1" [Update (with_status st_running new_job)]
           jobs d).
  reflexivity.
Defined.

(** X19: once the worker of a started job has returned, [job_status] shows
    the job as [completed] or [error], never as [pending] or [running],
    whatever the images, the captioning, the embedder and the file system
    did; the state shown is the last one the worker wrote. *)
Theorem finished_job_is_terminal {arith : ProgressArith} {F : Type}
    {num : Numeric F} (path_exists : string → bool) (job_id : string) (now : Q)
    (jobs : dict job_data) (data : start_request)
    (w : world F) (s : settings F) (order : list string) :
  let started := start_job path_exists job_id now jobs data in
  let evs :=
    _process_job w s (default "" (req_output_folder data)) order new_job in
  started.1 = Json job_id →
  ∃ d, Web.job_status (run_worker job_id evs started.2) job_id = Json d
    ∧ jd_id d = job_id
    ∧ Some (jd_input_folder d) = req_input_folder data
    ∧ Some (jd_output_folder d) = req_output_folder data
    ∧ List.last evs (Update new_job) = Update (jd_state d)
    ∧ is_terminal (Job.job_status (jd_state d)) = true.
Proof.
  intros started evs Hok. subst started. unfold start_job in *.
  destruct (falsy (req_input_folder data)) eqn:Ei; [done|].
  destruct (falsy (req_output_folder data)) eqn:Eo; [done|].
  cbn [orb] in *.
  destruct (path_exists (default "" (req_input_folder data))) eqn:Ep;
    cbn [negb] in *; [|done].
  unfold falsy in Ei, Eo.
  destruct (req_input_folder data) as [i|]; [|done].
  destruct (req_output_folder data) as [o|]; [|done].
  destruct (update_settings default_settings (req_settings data))
    as [exception|settings]; [done|].
  cbn [create_job fst snd default from_option id] in *.
  set (d := JobData job_id i o settings now new_job).
  assert (dict_get job_id (dict_set job_id d jobs) = Some d) as Hd.
  { by rewrite dict_get_set, String.eqb_refl. }
  destruct (process_job_ends w s o order new_job) as (pre & j & Hevs & Hterm).
  fold evs in Hevs.
  assert (List.last (updates evs) (jd_state d) = j) as Hlast.
  { rewrite Hevs, JobFacts.updates_app. apply List.last_last. }
  exists (with_state j d). split.
  { unfold Web.job_status.
    by rewrite (run_worker_own job_id evs _ _ Hd), Hlast. }
  rewrite Hevs, List.last_last. done.
Qed.

Lemma finished_job_is_terminal_witness :
  let data := StartRequest (Some "/in") (Some "/out") SettingsAbsent in
  let w := calm_world ["/in/a.jpg"; "/in/b.jpg"] (λ _, "red car") in
  let evs := _process_job w Job.default_settings "/out" image_extensions new_job in
  ∃ d, Web.job_status
         (run_worker "j1" evs (start_job (λ _, true) "j1" 0%Q [] data).2) "j1"
       = Json d
    ∧ is_terminal (Job.job_status (jd_state d)) = true.
Proof.
  intros data w evs.
  destruct (finished_job_is_terminal (λ _, true) "j1" 0%Q [] data w
              Job.default_settings image_extensions)
    as (d & Hd & _ & _ & _ & _ & Ht).
  - reflexivity.
  - exists d. split; [exact Hd | exact Ht].
Defined.

Lemma insert_item_perm x l : insert_item x l ≡ₚ x :: l.
Proof.
  induction l as [|y l IH]; simpl; [done|].
  destruct (String.leb _ _); [done|]. by rewrite IH, Permutation_swap.
Qed.

Lemma sort_items_perm l : sort_items l ≡ₚ l.
Proof.
  induction l as [|x l IH]; simpl; [done|].
  by rewrite insert_item_perm, IH.
Qed.

#[local] Instance by_lower_name_trans : Transitive by_lower_name.
Proof. intros a b c Hab Hbc. unfold by_lower_name in *. by etrans. Qed.

Lemma insert_item_hd y x l :
  by_lower_name y x → HdRel by_lower_name y l →
  HdRel by_lower_name y (insert_item x l).
Proof.
  intros Hyx Hyl. destruct l as [|z l]; simpl; [by constructor|].
  destruct (String.leb _ _); constructor; [done|].
  by inversion Hyl.
Qed.

Lemma insert_item_sorted x l :
  Sorted by_lower_name l → Sorted by_lower_name (insert_item x l).
Proof.
  induction 1 as [|y l Hl IH Hy]; simpl; [by repeat constructor|].
  destruct (String.leb (lower (item_name x)) (lower (item_name y))) eqn:E.
  - constructor; [by constructor|]. constructor. unfold by_lower_name, String.le.
    by rewrite E.
  - constructor; [done|]. apply insert_item_hd; [|done].
    destruct (String.leb_total (lower (item_name x)) (lower (item_name y)))
      as [Hxy|Hyx]; [congruence|].
    unfold by_lower_name, String.le. by rewrite Hyx.
Qed.

Lemma sort_items_sorted l : StronglySorted by_lower_name (sort_items l).
Proof.
  apply Sorted_StronglySorted; [apply by_lower_name_trans|].
  induction l as [|x l IH]; simpl; [constructor|].
  by apply insert_item_sorted.
Qed.

Lemma insert_item_stable key x l :
  List.filter (λ e, String.eqb (lower (item_name e)) key) (insert_item x l)
  = List.filter (λ e, String.eqb (lower (item_name e)) key) (x :: l).
Proof.
  induction l as [|y l IH]; [done|]. simpl insert_item.
  destruct (String.leb (lower (item_name x)) (lower (item_name y))) eqn:E; [done|].
  simpl in *. rewrite IH.
  destruct (String.eqb_spec (lower (item_name y)) key) as [Hy|Hy],
    (String.eqb_spec (lower (item_name x)) key) as [Hx|Hx]; try done.
  rewrite Hx, Hy in E. by destruct (String.leb_total key key); congruence.
Qed.

Lemma sort_items_stable key l :
  List.filter (λ e, String.eqb (lower (item_name e)) key) (sort_items l)
  = List.filter (λ e, String.eqb (lower (item_name e)) key) l.
Proof.
  induction l as [|x l IH]; [done|]. simpl sort_items.
  rewrite insert_item_stable. simpl. by rewrite IH.
Qed.

Lemma omap_folders (isdir : string → bool) path names :
  omap (λ item,
          if isdir (path_join path item)
          then Some (FolderItem item (path_join path item) "folder")
          else None) names
  = map (folder_entry path)
      (List.filter (λ item, isdir (path_join path item)) names).
Proof.
  induction names as [|n names IH]; [done|]. csimpl. cbn [List.filter].
  destruct (isdir (path_join path n)); csimpl; by rewrite IH.
Qed.

(** X20: when the directory can be listed, [browse_folder] answers with the
    path itself and one item per entry that is a directory, and no other:
    each item has the name of the entry, the joined path and the type
    [folder]; the items are sorted by their lower-cased names, items whose
    names differ only in case keep the order of [os.listdir]; the parent is
    [os.path.dirname(path)], or null where the path is its own parent.  A
    directory that cannot be read gives 403, any other failure gives 500
    with its message. *)
Theorem browse_folder_listing (listdir : string → os_error + list string)
    (isdir : string → bool) (path : string) :
  match listdir path with
  | inr names =>
      ∃ l, browse_folder listdir isdir path = Json l
        ∧ current_path l = path
        ∧ items l
          ≡ₚ map (folder_entry path)
               (List.filter (λ item, isdir (path_join path item)) names)
        ∧ StronglySorted by_lower_name (items l)
        ∧ (∀ key,
             List.filter (λ e, String.eqb (lower (item_name e)) key) (items l)
             = map (folder_entry path)
                 (List.filter
                    (λ item, isdir (path_join path item)
                             && String.eqb (lower item) key) names))
        ∧ parent_path l
          = (if decide (path = dirname path) then None else Some (dirname path))
  | inl (PermissionError _) =>
      browse_folder listdir isdir path = Failure 403 "Permission denied"
  | inl (OtherError message) =>
      browse_folder listdir isdir path = Failure 500 message
  end.
Proof.
  unfold browse_folder. destruct (listdir path) as [[m|m]|names]; [done|done|].
  eexists. split; [done|]. cbn [current_path items parent_path].
  rewrite omap_folders. split; [done|]. split; [apply sort_items_perm|].
  split; [apply sort_items_sorted|]. split.
  - intros key. rewrite sort_items_stable.
    induction names as [|n names IH]; [done|]. cbn [List.filter].
    destruct (isdir (path_join path n)); cbn [andb map List.filter]; [|done].
    cbn [folder_entry item_name].
    destruct (String.eqb (lower n) key); cbn [map]; by rewrite IH.
  - destruct (String.eqb_spec path (dirname path)) as [Heq|Hne];
      destruct (decide (path = dirname path)); done.
Qed.

Lemma drop_while_stop f pre x l :
  Forall (λ c, f c = true) pre → f x = false →
  drop_while f (pre ++ x :: l) = x :: l.
Proof.
  intros Hpre Hx. induction Hpre as [|c pre Hc Hpre IH]; simpl.
  - by rewrite Hx.
  - by rewrite Hc.
Qed.

Lemma prefix_slash c r : String.prefix "/" (String c r) = Ascii.eqb "/" c.
Proof.
  cbn [String.prefix]. destruct (ascii_dec "/" c) as [<-|Hc].
  - by destruct r.
  - symmetry. by apply Ascii.eqb_neq.
Qed.

Lemma last_not_slash path :
  path ≠ "" → endswith path "/" = false →
  ∃ c r, rev (chars path) = c :: r ∧ Ascii.eqb "/" c = false.
Proof.
  intros Hne Hend. unfold endswith in Hend.
  destruct (rev (chars path)) as [|c r] eqn:E.
  { exfalso. apply Hne. apply (f_equal (@rev ascii)) in E.
    rewrite rev_involutive in E. simpl in E.
    by rewrite <- (PyStrFacts.str_chars path), E. }
  exists c, r. split; [done|].
  change (str (rev (chars "/"))) with "/" in Hend.
  change (str (c :: r)) with (String c (str r)) in Hend.
  by rewrite prefix_slash in Hend.
Qed.

Lemma entry_name_spec item :
  entry_name item = true →
  item ≠ "" ∧ String.prefix "/" item = false
  ∧ Forall (λ c, negb (Ascii.eqb c "/") = true) (rev (chars item)).
Proof.
  unfold entry_name. intros [Hne Hall]%andb_true_iff.
  apply negb_true_iff, String.eqb_neq in Hne. split; [done|].
  rewrite forallb_forall in Hall. split.
  - destruct item as [|c item]; [done|]. rewrite prefix_slash.
    specialize (Hall c (or_introl eq_refl)).
    apply negb_true_iff in Hall. by rewrite Ascii.eqb_sym.
  - apply Forall_forall. intros c Hc. apply Hall.
    apply in_rev. by apply list_elem_of_In.
Qed.

Lemma dirname_join path item :
  normal_path path = true → entry_name item = true →
  dirname (path_join path item) = path.
Proof.
  intros Hp Hi. apply entry_name_spec in Hi as (_ & Hrel & Hchars).
  unfold path_join. rewrite Hrel.
  unfold normal_path in Hp. destruct (String.eqb_spec path "/") as [->|Hroot].
  { cbn [String.eqb orb endswith]. change (endswith "/" "/") with true.
    cbn [orb]. unfold dirname.
    rewrite PyStrFacts.chars_app. change (chars "/") with ["/"%char].
    cbn [app rev]. rewrite (drop_while_stop _ _ "/" []); done. }
  cbn [orb] in Hp. apply andb_true_iff in Hp as [Hne Hend].
  apply negb_true_iff in Hne, Hend. rewrite Hne, Hend. cbn [orb].
  apply String.eqb_neq in Hne.
  destruct (last_not_slash path Hne Hend) as (c & r & Hrev & Hc).
  unfold dirname. rewrite !PyStrFacts.chars_app. change (chars "/") with ["/"%char].
  rewrite !rev_app_distr, <- app_assoc. cbn [rev app].
  rewrite (drop_while_stop _ _ "/" (rev (chars path))) by done.
  cbn [rev]. rewrite rev_involutive.
  assert (String.eqb (str (chars path ++ ["/"%char])) "" = false) as ->.
  { apply String.eqb_neq. intros H. apply (f_equal chars) in H.
    rewrite PyStrFacts.chars_str in H. by destruct (chars path). }
  assert (forallb (Ascii.eqb "/") (chars (str (chars path ++ ["/"%char]))) = false)
    as ->.
  { rewrite PyStrFacts.chars_str. apply not_true_iff_false. intros Hall.
    rewrite forallb_forall in Hall. specialize (Hall c).
    rewrite Hall in Hc; [done|]. apply in_or_app. left.
    apply in_rev. rewrite Hrev. by left. }
  cbn [negb andb]. unfold rstrip_char, rstrip_by.
  rewrite PyStrFacts.chars_str, rev_app_distr. cbn [rev app drop_while].
  rewrite Ascii.eqb_refl, Hrev. cbn [drop_while]. rewrite Hc, <- Hrev.
  by rewrite rev_involutive, PyStrFacts.str_chars.
Qed.

Lemma path_join_chars path item :
  String.prefix "/" item = false →
  ∃ sep, chars (path_join path item) = chars path ++ sep ++ chars item.
Proof.
  intros Hrel. unfold path_join. rewrite Hrel. destruct (_ || _).
  - exists []. by rewrite PyStrFacts.chars_app.
  - exists ["/"%char]. by rewrite !PyStrFacts.chars_app.
Qed.

Lemma chars_nonempty s : s ≠ "" → chars s ≠ [].
Proof.
  intros Hne Hs. apply Hne. by rewrite <- (PyStrFacts.str_chars s), Hs.
Qed.

Lemma join_longer path item :
  entry_name item = true → path_join path item ≠ path ∧ path_join path item ≠ "".
Proof.
  intros Hi. apply entry_name_spec in Hi as (Hne%chars_nonempty & Hrel & _).
  destruct (path_join_chars path item Hrel) as [sep Hchars].
  split; intros Heq; rewrite Heq in Hchars;
    apply (f_equal length) in Hchars; rewrite !length_app in Hchars;
    destruct (chars item); simpl in Hchars; done || lia.
Qed.

(** X21: the parent link leads back.  For a folder that is the root or a
    non-empty path without a trailing slash, and an entry name without a
    slash, the path of the item is again of that kind, its
    [os.path.dirname] is the folder, and browsing the item answers with
    that folder as [parent_path], never with null. *)
Theorem browse_item_parent (listdir : string → os_error + list string)
    (isdir : string → bool) (path item : string) (names : list string) :
  normal_path path = true →
  entry_name item = true →
  listdir (item_path (folder_entry path item)) = inr names →
  dirname (item_path (folder_entry path item)) = path
  ∧ normal_path (item_path (folder_entry path item)) = true
  ∧ ∃ l, browse_folder listdir isdir (item_path (folder_entry path item)) = Json l
      ∧ parent_path l = Some path.
Proof.
  intros Hp Hi Hls. cbn [folder_entry item_path] in *.
  pose proof (dirname_join path item Hp Hi) as Hdir.
  destruct (join_longer path item Hi) as [Hlong Hfull].
  split; [done|]. split.
  - apply entry_name_spec in Hi as (Hne%chars_nonempty & Hrel & Hchars).
    unfold normal_path. apply orb_true_iff. right. apply andb_true_iff. split.
    + by apply negb_true_iff, String.eqb_neq.
    + apply negb_true_iff. unfold endswith.
      destruct (path_join_chars path item Hrel) as [sep ->].
      rewrite !rev_app_distr.
      destruct (rev (chars item)) as [|c r] eqn:E.
      { apply (f_equal (@rev ascii)) in E. by rewrite rev_involutive in E. }
      apply Forall_cons in Hchars as [Hc _]. apply negb_true_iff in Hc.
      change (str (rev (chars "/"))) with "/".
      change (str (((c :: r) ++ rev sep) ++ rev (chars path)))
        with (String c (str ((r ++ rev sep) ++ rev (chars path)))).
      by rewrite prefix_slash, Ascii.eqb_sym.
  - unfold browse_folder. rewrite Hls. eexists. split; [done|].
    cbn [parent_path]. rewrite Hdir.
    destruct (String.eqb_spec (path_join path item) path); done.
Qed.

Lemma browse_item_parent_witness :
  dirname (item_path (folder_entry "/home/user" "Pictures")) = "/home/user".
Proof.
  apply (browse_item_parent
           (λ _, inr ["a.jpg"; "2024"]) (λ p, String.eqb p "/home/user/Pictures/2024")
           "/home/user" "Pictures" ["a.jpg"; "2024"]).
  - reflexivity.
  - reflexivity.
  - reflexivity.
Defined.

End WebFacts.

(** ** The scenarios of the specification, run on the model *)
Module Scenarios.
Import Sanitizer Grouper Organizer Job.

Example strip_and_split :
  strip "  Red  Car " = "Red  Car"
  ∧ split " red   car blue " = ["red"; "car"; "blue"].
Proof. split; reflexivity. Qed.

Example suffixes :
  path_suffix "/in/sub.d/IMG.tar.JPG" = ".JPG"
  ∧ path_suffix "/in/.jpg" = ""
  ∧ path_suffix "/in/README" = "".
Proof. repeat split; reflexivity. Qed.

Example candidate_filename_example :
  candidate_filename "  'Red  Car', Sunset! " "/in/IMG_1.JPG"
  = "red_car_sunset.jpg".
Proof. reflexivity. Qed.

Example most_common_ties :
  most_common 3 (Counter (split "a b a c b b d c"))
  = [("b", 3%nat); ("a", 2%nat); ("c", 2%nat)].
Proof. reflexivity. Qed.

Example unique_name_suffix :
  unique_name [("red_car", 0%nat); ("red_car_1", 1%nat)] "red_car" = "red_car_2".
Proof. reflexivity. Qed.

(** Scenario A: three images described as [red car] and two as
    [blue sky], threshold 0.99, minimum group size 3. *)
Example scenario_A :
  map (λ e, (e.1, map original_name e.2))
    (_group_similar_images axis_embed
       [record "1.jpg" "red car"; record "2.jpg" "blue sky";
        record "3.jpg" "red car"; record "4.jpg" "blue sky";
        record "5.jpg" "red car"]
       (99 # 100)%Q 3)
  = [("red_car", ["1.jpg"; "3.jpg"; "5.jpg"]);
     ("misc_singles", ["2.jpg"; "4.jpg"])].
Proof. by vm_compute. Qed.

(** Scenario C: a single image is placed under its candidate filename. *)
Example scenario_C :
  omap (λ e, match e with FsCall op => Some op | _ => None end)
    (_process_job (calm_world ["/in/IMG_7.PNG"] (λ _, "A red car."))
       default_settings "/out" image_extensions new_job)
  = [MkdirOutput "/out"; MkdirGroup "misc_singles";
     Copy2 "/in/IMG_7.PNG" "misc_singles" "a_red_car.png"].
Proof. by vm_compute. Qed.

(** A group of three: the members are renamed in the order of their
    original names, after the description of the first of them. *)
Example organize_three :
  (organize_group false "red_car"
     [record "b.jpg" "red car at night"; record "a.PNG" "fast red sports car now";
      record "c.jpeg" "red car"]).1
  = [MkdirGroup "red_car";
     Move "/in/a.PNG" "red_car" "fast_red_sports_car_01.PNG";
     Move "/in/b.jpg" "red_car" "fast_red_sports_car_02.jpg";
     Move "/in/c.jpeg" "red_car" "fast_red_sports_car_03.jpeg"].
Proof. by vm_compute. Qed.

End Scenarios.
